(** * Partitioning Around Medoids (clupp, [src/pam.cpp])

    A shallow embedding of the PAM implementation of clupp and the
    properties its specification states about it.

    Conventions of the embedding:
    - [double] is IEEE 754 binary64, taken as Rocq's primitive [float];
      every comparison and arithmetic operation of the source is the
      primitive one, so [x > y] of the source reads [(y <? x)%float].
    - [int] is [Z]; the object indices never leave [0 .. n-1] and the loop
      counters never exceed [n] or [k], so 32-bit wrap-around does not occur.
    - [std::set<int>] is a strictly increasing [list Z]: iteration of the
      source is in ascending order, which is the order of the list.
    - [std::vector<int>] is a [list Z] read and written by index.
    - [Eigen::MatrixXd] is the list of its rows.
    - The [while] loop of [refine] is bounded by a number of iterations
      ([fuel]); a run that has not left the loop within them has no result
      yet, and a run that never leaves it has none for any bound. *)

From Stdlib Require Import String ZArith List Bool Lia Sorted.
From Stdlib Require Import Floats.
Import ListNotations.
Open Scope Z_scope.

Set Implicit Arguments.

(** ** Scalars *)

Definition double : Set := float.

(** [std::numeric_limits<double>::min()]: the smallest positive normal
    binary64 number, 2^-1022. *)
Definition DBL_MIN : double := 0x1p-1022%float.

(** [std::numeric_limits<double>::max()]: the largest finite binary64
    number. *)
Definition DBL_MAX : double := 0x1.fffffffffffffp+1023%float.

(** [std::max(a, b)] is [(a < b) ? b : a]. *)
Definition std_max (a b : double) : double :=
  if (a <? b)%float then b else a.

(** ** Eigen::MatrixXd *)

Definition MatrixXd : Set := list (list double).

Definition rows (m : MatrixXd) : Z := Z.of_nat (length m).

(** [m(i, j)].  Reading outside the matrix is undefined in the source; the
    model returns [0.0] there. *)
Definition coeff (m : MatrixXd) (i j : Z) : double :=
  nth (Z.to_nat j) (nth (Z.to_nat i) m []) 0%float.

(** [v.sum()] of Eigen on a row of a column-major matrix: the reduction
    starts from the first coefficient and adds the others in order. *)
Definition row_sum (v : list double) : double :=
  match v with
  | [] => 0%float
  | x :: t => fold_left PrimFloat.add t x
  end.

(** [v.minCoeff(&index)]: one visit of the coefficients in order, keeping
    the first strictly smallest one.  Returns the index. *)
Definition minCoeff_visit (acc : double * Z * Z) (y : double) : double * Z * Z :=
  let '(best, index, i) := acc in
  if (y <? best)%float then (y, i, i + 1) else (best, index, i + 1).

Definition minCoeff (v : list double) : Z :=
  match v with
  | [] => 0
  | x :: t => snd (fst (fold_left minCoeff_visit t (x, 0, 1)))
  end.

(** ** std::set<int> and std::vector<int> *)

Fixpoint set_insert (x : Z) (s : list Z) : list Z :=
  match s with
  | [] => [x]
  | y :: t =>
      if x <? y then x :: s
      else if x =? y then s
      else y :: set_insert x t
  end.

Fixpoint set_erase (x : Z) (s : list Z) : list Z :=
  match s with
  | [] => []
  | y :: t => if x =? y then set_erase x t else y :: set_erase x t
  end.

Definition vec_get (v : list Z) (i : Z) : Z := nth (Z.to_nat i) v 0.

Fixpoint list_update (v : list Z) (n : nat) (x : Z) : list Z :=
  match v, n with
  | [], _ => []
  | _ :: t, O => x :: t
  | y :: t, S n' => y :: list_update t n' x
  end.

(** [v[i] = x].  Writing outside the vector is undefined in the source; the
    model leaves the vector as it is. *)
Definition vec_set (v : list Z) (i : Z) (x : Z) : list Z :=
  if i <? 0 then v else list_update v (Z.to_nat i) x.

(** ** struct pam_data *)

Record pam_data : Set := mk_pam_data {
  medoids : list Z;
  nonselected : list Z;
  classification : list Z;
  second_closest_medoid : list Z
}.

(** The objects [0 .. n-1], as the constructor's loop inserts them. *)
Definition all_objects (number_of_objects : Z) : list Z :=
  map Z.of_nat (seq 0 (Z.to_nat number_of_objects)).

(** [pam_data(number_of_objects, initial_medoid)]. *)
Definition pam_data_new (number_of_objects initial_medoid : Z) : pam_data :=
  {| medoids := set_insert initial_medoid [];
     nonselected := set_erase initial_medoid (all_objects number_of_objects);
     classification := repeat initial_medoid (Z.to_nat number_of_objects);
     second_closest_medoid := repeat initial_medoid (Z.to_nat number_of_objects) |}.

Definition assign_medoid (object medoid : Z) (s : pam_data) : pam_data :=
  {| medoids := medoids s;
     nonselected := nonselected s;
     classification := vec_set (classification s) object medoid;
     second_closest_medoid := second_closest_medoid s |}.

Definition set_second_closest (object medoid : Z) (s : pam_data) : pam_data :=
  {| medoids := medoids s;
     nonselected := nonselected s;
     classification := classification s;
     second_closest_medoid := vec_set (second_closest_medoid s) object medoid |}.

Definition add_medoid (medoid : Z) (s : pam_data) : pam_data :=
  assign_medoid medoid medoid
    {| medoids := set_insert medoid (medoids s);
       nonselected := set_erase medoid (nonselected s);
       classification := classification s;
       second_closest_medoid := second_closest_medoid s |}.

Definition replace_medoid (old_medoid new_medoid medoid : Z) : Z :=
  if medoid =? old_medoid then new_medoid else medoid.

Definition swap_medoid (old_medoid new_medoid : Z) (s : pam_data) : pam_data :=
  let s1 := add_medoid new_medoid
              {| medoids := set_erase old_medoid (medoids s);
                 nonselected := set_insert old_medoid (nonselected s);
                 classification := classification s;
                 second_closest_medoid := second_closest_medoid s |} in
  {| medoids := medoids s1;
     nonselected := nonselected s1;
     classification := map (replace_medoid old_medoid new_medoid) (classification s1);
     second_closest_medoid :=
       map (replace_medoid old_medoid new_medoid) (second_closest_medoid s1) |}.

(** ** Build *)

Definition find_initial_medoid (distances : MatrixXd) : Z :=
  minCoeff (map row_sum distances).

(** The inner loop of [find_next_medoid]: the gain of candidate [i]. *)
Definition gain_step (distances : MatrixXd) (clustering : pam_data) (i : Z)
    (gain : double) (j : Z) : double :=
  let D_j := coeff distances j (vec_get (classification clustering) j) in
  let d_j_i := coeff distances j i in
  (gain + std_max (D_j - d_j_i) 0)%float.

Definition gain (distances : MatrixXd) (clustering : pam_data) (i : Z) : double :=
  fold_left (gain_step distances clustering i)
    (set_erase i (nonselected clustering)) 0%float.

Definition next_medoid_step (distances : MatrixXd) (clustering : pam_data)
    (acc : double * Z) (i : Z) : double * Z :=
  let '(maximum_gain, next_medoid) := acc in
  let g := gain distances clustering i in
  if (maximum_gain <? g)%float then (g, i) else (maximum_gain, next_medoid).

Definition find_next_medoid (distances : MatrixXd) (clustering : pam_data) : Z :=
  snd (fold_left (next_medoid_step distances clustering)
         (nonselected clustering) (DBL_MIN, 0)).

(** The body of the two loops of [reclassify_objects], for one object and
    one medoid. *)
Definition reclassify_step (distances : MatrixXd) (object : Z)
    (clustering : pam_data) (medoid : Z) : pam_data :=
  let object_medoid := vec_get (classification clustering) object in
  if object_medoid =? medoid then clustering
  else
    let second_closest := vec_get (second_closest_medoid clustering) object in
    let current_distance := coeff distances object object_medoid in
    let second_distance := coeff distances object second_closest in
    let potential_distance := coeff distances object medoid in
    if (potential_distance <? current_distance)%float then
      set_second_closest object object_medoid
        (assign_medoid object medoid clustering)
    else if (potential_distance <? second_distance)%float then
      set_second_closest object medoid clustering
    else clustering.

Definition reclassify_object (distances : MatrixXd)
    (acc : double * pam_data) (object : Z) : double * pam_data :=
  let '(total_dissimilarity, clustering) := acc in
  let clustering' :=
    fold_left (reclassify_step distances object) (medoids clustering) clustering in
  ((total_dissimilarity
    + coeff distances object (vec_get (classification clustering') object))%float,
   clustering').

(** Returns the total dissimilarity and the updated clustering. *)
Definition reclassify_objects (distances : MatrixXd) (clustering : pam_data)
    : double * pam_data :=
  fold_left (reclassify_object distances) (nonselected clustering)
    (0%float, clustering).

Definition build_step (distances : MatrixXd) (clustering : pam_data) : pam_data :=
  snd (reclassify_objects distances
         (add_medoid (find_next_medoid distances clustering) clustering)).

Fixpoint build_loop (count : nat) (distances : MatrixXd) (clustering : pam_data)
    : pam_data :=
  match count with
  | O => clustering
  | S count' => build_loop count' distances (build_step distances clustering)
  end.

Definition build (k : Z) (distances : MatrixXd) : pam_data :=
  let initial_medoid := find_initial_medoid distances in
  let initial_clustering := pam_data_new (rows distances) initial_medoid in
  build_loop (Z.to_nat (k - 1)) distances initial_clustering.

(** ** Refine *)

(** The contribution of object [j] to the cost of swapping medoid [i] for
    the nonselected object [h]. *)
Definition swap_contribution (distances : MatrixXd) (i h : Z)
    (clustering : pam_data) (j : Z) : double :=
  let D_j := coeff distances j (vec_get (classification clustering) j) in
  let d_j_i := coeff distances j i in
  let d_j_h := coeff distances j h in
  if (d_j_i <=? D_j)%float then
    let E_j := coeff distances j (vec_get (second_closest_medoid clustering) j) in
    if (d_j_h <? E_j)%float then (d_j_h - d_j_i)%float
    else (E_j - d_j_i)%float
  else if (D_j <? d_j_i)%float && (d_j_h <? D_j)%float then (d_j_h - D_j)%float
  else 0%float.

Definition calculate_swap_cost (distances : MatrixXd) (i h : Z)
    (clustering : pam_data) : double :=
  fold_left
    (fun total_contribution j =>
       (total_contribution + swap_contribution distances i h clustering j)%float)
    (set_erase h (nonselected clustering)) 0%float.

(** The body of the two search loops of [refine]: the running minimum and
    the pair that reached it. *)
Definition swap_search_step (distances : MatrixXd) (clustering : pam_data)
    (i : Z) (acc : double * Z * Z) (h : Z) : double * Z * Z :=
  let '(minimum_contribution, old_medoid, new_medoid) := acc in
  let contribution := calculate_swap_cost distances i h clustering in
  if (contribution <? minimum_contribution)%float then (contribution, i, h)
  else acc.

Definition find_best_swap (distances : MatrixXd) (clustering : pam_data)
    : double * Z * Z :=
  fold_left
    (fun acc i =>
       fold_left (swap_search_step distances clustering i)
         (nonselected clustering) acc)
    (medoids clustering) (DBL_MAX, -1, -1).

(** One iteration of the [while] loop of [refine]: [Some] of the state
    after the swap, or [None] when [perform_swaps] becomes false. *)
Definition refine_step (distances : MatrixXd) (clustering : pam_data)
    : option pam_data :=
  let '(minimum_contribution, old_medoid, new_medoid) :=
    find_best_swap distances clustering in
  if (minimum_contribution <? 0)%float && (old_medoid >=? 0) && (new_medoid >=? 0)
  then Some (snd (reclassify_objects distances
                    (swap_medoid old_medoid new_medoid clustering)))
  else None.

(** The [while] loop, bounded by [fuel] iterations; [None] when the loop
    has not exited within them. *)
Fixpoint refine (fuel : nat) (distances : MatrixXd) (clustering : pam_data)
    : option pam_data :=
  match fuel with
  | O => None
  | S fuel' =>
      match refine_step distances clustering with
      | Some clustering' => refine fuel' distances clustering'
      | None => Some clustering
      end
  end.

(** The number of calls of [swap_medoid] the loop makes before it exits. *)
Fixpoint swaps_performed (fuel : nat) (distances : MatrixXd)
    (clustering : pam_data) : option nat :=
  match fuel with
  | O => None
  | S fuel' =>
      match refine_step distances clustering with
      | Some clustering' =>
          option_map S (swaps_performed fuel' distances clustering')
      | None => Some O
      end
  end.

(** ** The entry point *)

Module pam_result.
Record t : Set := make {
  medoids : list Z;
  classification : list Z
}.
End pam_result.

Inductive outcome : Set :=
| Threw (what : string)
| Returned (final_clustering : pam_result.t)
| OutOfFuel.

Section EntryPoint.

(** [calculate_distance_matrix] is declared in [clupp/distance.hpp], which
    is outside the sources; the entry point is taken over any provider. *)
Variable calculate_distance_matrix : MatrixXd -> MatrixXd.

Definition partition_around_medoids (fuel : nat) (k : Z) (matrix : MatrixXd)
    : outcome :=
  if k <? 2 then
    Threw "Error: less than two partitions were requested."
  else if rows matrix <? k then
    Threw "Error: not enough rows to create k partitions."
  else
    let distances := calculate_distance_matrix matrix in
    let initial_clustering := build k distances in
    match refine fuel distances initial_clustering with
    | Some clustering =>
        Returned {| pam_result.medoids := medoids clustering;
                    pam_result.classification := classification clustering |}
    | None => OutOfFuel
    end.

End EntryPoint.

(** Modelled from the spec: the distance provider ([clupp/distance.hpp]) is
    not among the sources.  The spec fixes its contract only: an n x n
    matrix, symmetric, non-negative, with a zero diagonal, whose entry
    (i, j) is the dissimilarity of observations i and j.  The Euclidean
    distance of the rows is the instance used for concrete inputs. *)
Definition squared_difference_step (acc : double) (ab : double * double) : double :=
  let '(a, b) := ab in (acc + (a - b) * (a - b))%float.

Definition euclidean_distance (a b : list double) : double :=
  PrimFloat.sqrt (fold_left squared_difference_step (combine a b) 0%float).

Definition euclidean_distance_matrix (matrix : MatrixXd) : MatrixXd :=
  map (fun a => map (fun b => euclidean_distance a b) matrix) matrix.

(** ** Predicates of the specification *)

Definition ordered_set (s : list Z) : Prop := StronglySorted Z.lt s.

(** What holds of a [pam_data] over [n] objects between any two of its
    member calls: the two sets are ordered, they split [0 .. n-1], both
    vectors have [n] entries, every medoid is classified to itself, every
    object is classified to a medoid, and every second closest medoid is
    an object. *)
Record pam_inv (n : Z) (s : pam_data) : Prop := {
  inv_medoids_ordered : ordered_set (medoids s);
  inv_nonselected_ordered : ordered_set (nonselected s);
  inv_cover : forall o, 0 <= o < n <-> In o (medoids s) \/ In o (nonselected s);
  inv_disjoint : forall o, In o (medoids s) -> ~ In o (nonselected s);
  inv_classification_size : Z.of_nat (length (classification s)) = n;
  inv_second_size : Z.of_nat (length (second_closest_medoid s)) = n;
  inv_medoid_self : forall m, In m (medoids s) -> vec_get (classification s) m = m;
  inv_classified : forall o, 0 <= o < n -> In (vec_get (classification s) o) (medoids s);
  inv_second_range : forall o, 0 <= o < n -> 0 <= vec_get (second_closest_medoid s) o < n
}.

(** A state with the sets of [s] that satisfies the invariant. *)
Definition same_sets_inv (n : Z) (s s' : pam_data) : Prop :=
  pam_inv n s' /\ medoids s' = medoids s /\ nonselected s' = nonselected s.

(** The pair [find_best_swap] answers is a medoid and a nonselected object,
    unless it is the initial pair (-1, -1). *)
Definition swap_candidate (s : pam_data) (acc : double * Z * Z) : Prop :=
  (snd (fst acc) = -1 /\ snd acc = -1) \/
  (In (snd (fst acc)) (medoids s) /\ In (snd acc) (nonselected s)).

(** The running minimum of the search is a number; it is [DBL_MAX] with
    the pair (-1, -1), or the pair is a medoid and a nonselected object. *)
Definition search_state (s : pam_data) (acc : double * Z * Z) : Prop :=
  is_nan (fst (fst acc)) = false /\
  ((acc = (DBL_MAX, -1, -1)) \/
   (In (snd (fst acc)) (medoids s) /\ In (snd acc) (nonselected s))).

(** No entry is a NaN. *)
Definition all_numbers (distances : MatrixXd) : bool :=
  forallb (forallb (fun x => negb (is_nan x))) distances.

(** The contract of the distance provider: an n x n matrix, symmetric,
    non-negative, with a zero diagonal. *)
Definition valid_distance_matrix (distances : MatrixXd) : bool :=
  let objects := all_objects (rows distances) in
  forallb (fun row => (length row =? length distances)%nat) distances
  && forallb
       (fun i =>
          (coeff distances i i =? 0)%float
          && forallb
               (fun j =>
                  (0 <=? coeff distances i j)%float
                  && (coeff distances i j =? coeff distances j i)%float)
               objects)
       objects.

(** The contribution of object [j] as the specification words it, by four
    cases. *)
Definition spec_contribution (distances : MatrixXd) (i h : Z)
    (clustering : pam_data) (j : Z) : double :=
  let D_j := coeff distances j (vec_get (classification clustering) j) in
  let d_j_i := coeff distances j i in
  let d_j_h := coeff distances j h in
  let E_j := coeff distances j (vec_get (second_closest_medoid clustering) j) in
  if (d_j_i <=? D_j)%float && (d_j_h <? E_j)%float then (d_j_h - d_j_i)%float
  else if (d_j_i <=? D_j)%float && (E_j <=? d_j_h)%float then (E_j - d_j_i)%float
  else if (D_j <? d_j_i)%float && (d_j_h <? D_j)%float then (d_j_h - D_j)%float
  else 0%float.

(** The sum, in ascending order of [j], over the nonselected [j <> h]. *)
Definition spec_swap_cost (distances : MatrixXd) (i h : Z)
    (clustering : pam_data) : double :=
  fold_left PrimFloat.add
    (map (spec_contribution distances i h clustering)
       (filter (fun j => negb (j =? h)) (nonselected clustering)))
    0%float.

(** The candidate the specification selects in a Build iteration: the
    nonselected object of maximum gain, the first one among equals. *)
Definition spec_next_medoid (distances : MatrixXd) (clustering : pam_data)
    : option Z :=
  fold_left
    (fun best i =>
       match best with
       | None => Some i
       | Some b =>
           if (gain distances clustering b <? gain distances clustering i)%float
           then Some i else best
       end)
    (nonselected clustering) None.

(** Before a candidate has been taken, the selection of the specification
    holds a candidate whose gain is a number not above [DBL_MIN], or none. *)
Definition below_threshold (distances : MatrixXd) (s : pam_data)
    (best : option Z) : Prop :=
  match best with
  | None => True
  | Some b =>
      is_nan (gain distances s b) = false
      /\ (DBL_MIN <? gain distances s b)%float = false
  end.

(** ** The points of a run *)

(** The states the clustering goes through in a run over [distances]:
    after the constructor in [build], after each [add_medoid] of [build],
    after each [swap_medoid] of [refine], and after each
    [reclassify_objects] of either. *)
Inductive run_point (distances : MatrixXd) : pam_data -> Prop :=
| point_constructed :
    run_point distances
      (pam_data_new (rows distances) (find_initial_medoid distances))
| point_added (s : pam_data) :
    run_point distances s ->
    run_point distances (add_medoid (find_next_medoid distances s) s)
| point_swapped (s : pam_data) (minimum_contribution : double)
    (old_medoid new_medoid : Z) :
    run_point distances s ->
    find_best_swap distances s = (minimum_contribution, old_medoid, new_medoid) ->
    (minimum_contribution <? 0)%float && (old_medoid >=? 0) && (new_medoid >=? 0)
    = true ->
    run_point distances (swap_medoid old_medoid new_medoid s)
| point_reclassified (s : pam_data) :
    run_point distances s ->
    run_point distances (snd (reclassify_objects distances s)).

(** ** Observations used as concrete inputs *)

(** Observations with one feature: points of a line. *)
Definition column (xs : list double) : MatrixXd := map (fun x => [x]) xs.

Definition two_points : MatrixXd := column [0; 1]%float.

Definition line3 : MatrixXd := column [0; 1; 2]%float.

Definition line6 : MatrixXd := column [0; 1; 2; 3; 5; 6]%float.

Definition two_pairs : MatrixXd := column [0; 1; 10; 11]%float.

(** Five observations at the same distance of one another. *)
Definition corners5 : MatrixXd :=
  [ [1; 0; 0; 0; 0]; [0; 1; 0; 0; 0]; [0; 0; 1; 0; 0];
    [0; 0; 0; 1; 0]; [0; 0; 0; 0; 1] ]%float.

Definition line6_distances : MatrixXd := euclidean_distance_matrix line6.

(** The two states [refine] alternates between on [line6]. *)
Definition line6_a : pam_data :=
  {| medoids := [2; 4];
     nonselected := [0; 1; 3; 5];
     classification := [2; 2; 2; 2; 4; 4];
     second_closest_medoid := [2; 2; 2; 2; 2; 2] |}.

Definition line6_b : pam_data :=
  {| medoids := [1; 4];
     nonselected := [0; 2; 3; 5];
     classification := [1; 1; 1; 1; 4; 4];
     second_closest_medoid := [1; 1; 1; 1; 1; 1] |}.

(** ** Case analysis on the comparison of binary64 numbers *)

(** Splits every integer and mantissa comparison in sight into its three
    outcomes. *)
Ltac compare_cases :=
  repeat match goal with
  | H : context [Z.compare ?a ?b] |- _ => destruct (Z.compare_spec a b)
  | |- context [Z.compare ?a ?b] => destruct (Z.compare_spec a b)
  | H : context [Pos.compare_cont Eq ?a ?b] |- _ =>
      change (Pos.compare_cont Eq a b) with (Pos.compare a b) in *;
      destruct (Pos.compare_spec a b)
  | |- context [Pos.compare_cont Eq ?a ?b] =>
      change (Pos.compare_cont Eq a b) with (Pos.compare a b) in *;
      destruct (Pos.compare_spec a b)
  end.

Ltac order_cases x y z :=
  destruct x as [[|]|[|]| |[|] ? ?], y as [[|]|[|]| |[|] ? ?],
    z as [[|]|[|]| |[|] ? ?];
  simpl; try discriminate; try reflexivity;
  intros; compare_cases; simpl in *;
  try discriminate; try reflexivity; subst; lia.

(** ** Further predicates on the clustering state *)

(** Every nonselected object is classified to a medoid no other medoid is
    strictly closer than. *)
Definition nearest_classified (distances : MatrixXd) (s : pam_data) : Prop :=
  forall o m, In o (nonselected s) -> In m (medoids s) ->
    (coeff distances o m <? coeff distances o (vec_get (classification s) o))%float
    = false.

(** Every entry of [second_closest_medoid] is a medoid. *)
Definition second_is_medoid (n : Z) (s : pam_data) : Prop :=
  forall o, 0 <= o < n -> In (vec_get (second_closest_medoid s) o) (medoids s).

(** What the visit of [minCoeff] has established once the coefficients
    before position [i] have been seen: the index kept is before [i], the
    value kept is the coefficient at that index, no coefficient seen is
    strictly below it and, among numbers, every coefficient before the
    index is strictly above it. *)
Definition minCoeff_seen (v : list double) (i : nat) (acc : double * Z * Z) : Prop :=
  let best := fst (fst acc) in
  let index := snd (fst acc) in
  snd acc = Z.of_nat i
  /\ (i <= length v)%nat
  /\ 0 <= index < Z.of_nat i
  /\ nth (Z.to_nat index) v 0%float = best
  /\ (forall j, (j < i)%nat -> (nth j v 0%float <? best)%float = false)
  /\ ((forall y, In y v -> is_nan y = false) ->
      forall j, (j < Z.to_nat index)%nat -> (best <? nth j v 0%float)%float = true).

(** What the loop of [find_next_medoid] has established once the
    candidates [seen] have been visited: either none of them has a gain
    above [DBL_MIN] and the loop still holds its initial values, or it
    holds a candidate seen and its gain, above [DBL_MIN], which no gain
    seen exceeds and, among numbers, which every candidate seen of a
    smaller index is strictly below. *)
Definition next_medoid_seen (distances : MatrixXd) (s : pam_data)
    (seen : list Z) (acc : double * Z) : Prop :=
  (acc = (DBL_MIN, 0)
   /\ forall i, In i seen -> (DBL_MIN <? gain distances s i)%float = false)
  \/ (In (snd acc) seen
      /\ fst acc = gain distances s (snd acc)
      /\ (DBL_MIN <? gain distances s (snd acc))%float = true
      /\ (forall i, In i seen ->
            (gain distances s (snd acc) <? gain distances s i)%float = false)
      /\ ((forall i, In i seen -> is_nan (gain distances s i) = false) ->
          forall i, In i seen -> i < snd acc ->
            (gain distances s i <? gain distances s (snd acc))%float = true)).

(** What the search of [refine] holds after any number of pairs: its
    initial values, or a medoid, a nonselected object and the cost of
    swapping them. *)
Definition search_holds_pair (distances : MatrixXd) (s : pam_data)
    (acc : double * Z * Z) : Prop :=
  acc = (DBL_MAX, -1, -1)
  \/ (In (snd (fst acc)) (medoids s) /\ In (snd acc) (nonselected s)
      /\ fst (fst acc)
         = calculate_swap_cost distances (snd (fst acc)) (snd acc) s).

(** * Properties *)

(** ** Ordered sets of integers *)

Lemma set_insert_In (x y : Z) (s : list Z) :
  In y (set_insert x s) <-> y = x \/ In y s.
Proof.
  induction s as [|z t IH]; simpl.
  - intuition.
  - destruct (x <? z) eqn:Hlt; [simpl; intuition|].
    destruct (x =? z) eqn:Heq.
    + apply Z.eqb_eq in Heq. subst z. simpl. intuition.
    + simpl. rewrite IH. intuition.
Qed.

Lemma set_erase_In (x y : Z) (s : list Z) :
  In y (set_erase x s) <-> y <> x /\ In y s.
Proof.
  induction s as [|z t IH]; simpl.
  - intuition.
  - destruct (x =? z) eqn:Heq.
    + apply Z.eqb_eq in Heq. subst z. rewrite IH. intuition congruence.
    + apply Z.eqb_neq in Heq. simpl. rewrite IH.
      split; [intros [->|[? ?]]|intros [? [->|?]]]; auto.
Qed.

Lemma set_insert_ordered (x : Z) (s : list Z) :
  ordered_set s -> ordered_set (set_insert x s).
Proof.
  unfold ordered_set. induction s as [|z t IH]; simpl; intros Hs.
  - constructor; constructor.
  - inversion Hs as [|? ? Ht Hz]; subst.
    destruct (x <? z) eqn:Hlt.
    + apply Z.ltb_lt in Hlt. constructor; [assumption|].
      constructor; [assumption|].
      eapply Forall_impl; [|exact Hz]. intros; lia.
    + destruct (x =? z) eqn:Heq; [assumption|].
      apply Z.ltb_ge in Hlt. apply Z.eqb_neq in Heq.
      constructor; [auto|].
      apply Forall_forall. intros y Hy. apply set_insert_In in Hy.
      destruct Hy as [->|Hy]; [lia|].
      rewrite Forall_forall in Hz. auto.
Qed.

Lemma set_erase_ordered (x : Z) (s : list Z) :
  ordered_set s -> ordered_set (set_erase x s).
Proof.
  unfold ordered_set. induction s as [|z t IH]; simpl; intros Hs.
  - constructor.
  - inversion Hs as [|? ? Ht Hz]; subst.
    destruct (x =? z); [auto|].
    constructor; [auto|].
    apply Forall_forall. intros y Hy. apply set_erase_In in Hy.
    rewrite Forall_forall in Hz. apply Hz, Hy.
Qed.

(** Inserting a member changes nothing. *)
Lemma set_insert_member (x : Z) (s : list Z) :
  ordered_set s -> In x s -> set_insert x s = s.
Proof.
  unfold ordered_set. induction s as [|z t IH]; simpl; intros Hs Hin.
  - contradiction.
  - inversion Hs as [|? ? Ht Hz]; subst.
    destruct Hin as [->|Hin].
    + rewrite Z.ltb_irrefl, Z.eqb_refl. reflexivity.
    + rewrite Forall_forall in Hz. specialize (Hz _ Hin).
      destruct (x <? z) eqn:Hlt; [apply Z.ltb_lt in Hlt; lia|].
      destruct (x =? z); [reflexivity|].
      f_equal. auto.
Qed.

(** Erasing a non-member changes nothing. *)
Lemma set_erase_absent (x : Z) (s : list Z) :
  ~ In x s -> set_erase x s = s.
Proof.
  induction s as [|z t IH]; simpl; intros Hin; [reflexivity|].
  destruct (x =? z) eqn:Heq.
  - apply Z.eqb_eq in Heq. subst. intuition.
  - f_equal. apply IH. intuition.
Qed.

Lemma all_objects_In (n o : Z) : In o (all_objects n) <-> 0 <= o < n.
Proof.
  unfold all_objects. rewrite in_map_iff. split.
  - intros (i & <- & Hi). apply in_seq in Hi. lia.
  - intros Ho. exists (Z.to_nat o). split; [lia|]. apply in_seq. lia.
Qed.

Lemma all_objects_ordered (n : Z) : ordered_set (all_objects n).
Proof.
  unfold all_objects, ordered_set.
  generalize (Z.to_nat n) as len. generalize 0%nat as start.
  intros start len. revert start.
  induction len as [|len IH]; intros start; simpl; constructor.
  - apply IH.
  - apply Forall_forall. intros y Hy. apply in_map_iff in Hy.
    destruct Hy as (i & <- & Hi). apply in_seq in Hi. lia.
Qed.

(** ** Vectors *)

Lemma list_update_length (v : list Z) (n : nat) (x : Z) :
  length (list_update v n x) = length v.
Proof.
  revert n. induction v as [|y t IH]; intros [|n]; simpl; auto.
Qed.

Lemma list_update_nth_same (v : list Z) (n : nat) (x : Z) :
  (n < length v)%nat -> nth n (list_update v n x) 0 = x.
Proof.
  revert n. induction v as [|y t IH]; intros [|n]; simpl; intros Hn;
    try lia; auto. apply IH. lia.
Qed.

Lemma list_update_nth_other (v : list Z) (n m : nat) (x : Z) :
  n <> m -> nth m (list_update v n x) 0 = nth m v 0.
Proof.
  revert n m. induction v as [|y t IH]; intros [|n] [|m]; simpl; intros Hn;
    try lia; auto.
Qed.

Lemma vec_set_length (v : list Z) (i x : Z) :
  length (vec_set v i x) = length v.
Proof.
  unfold vec_set. destruct (i <? 0); [reflexivity|apply list_update_length].
Qed.

Lemma vec_get_set_same (v : list Z) (i x : Z) :
  0 <= i < Z.of_nat (length v) -> vec_get (vec_set v i x) i = x.
Proof.
  intros Hi. unfold vec_get, vec_set.
  destruct (i <? 0) eqn:Hneg; [apply Z.ltb_lt in Hneg; lia|].
  apply list_update_nth_same. lia.
Qed.

Lemma vec_get_set_other (v : list Z) (i j x : Z) :
  0 <= j -> i <> j -> vec_get (vec_set v i x) j = vec_get v j.
Proof.
  intros Hj Hij. unfold vec_get, vec_set.
  destruct (i <? 0) eqn:Hneg; [reflexivity|].
  apply Z.ltb_ge in Hneg. apply list_update_nth_other. lia.
Qed.

Lemma vec_get_map (f : Z -> Z) (v : list Z) (i : Z) :
  0 <= i < Z.of_nat (length v) -> vec_get (map f v) i = f (vec_get v i).
Proof.
  intros Hi. unfold vec_get.
  rewrite (nth_indep (map f v) 0 (f 0)) by (rewrite length_map; lia).
  apply map_nth.
Qed.

Lemma vec_get_repeat (x : Z) (n : nat) (i : Z) :
  0 <= i < Z.of_nat n -> vec_get (repeat x n) i = x.
Proof.
  intros Hi. unfold vec_get. apply nth_repeat_lt. lia.
Qed.

(** ** The invariant of the clustering state *)

Lemma inv_medoid_range (n : Z) (s : pam_data) :
  pam_inv n s -> forall m, In m (medoids s) -> 0 <= m < n.
Proof. intros Hs m Hm. apply (inv_cover Hs). auto. Qed.

Lemma inv_nonselected_range (n : Z) (s : pam_data) :
  pam_inv n s -> forall o, In o (nonselected s) -> 0 <= o < n.
Proof. intros Hs o Ho. apply (inv_cover Hs). auto. Qed.

Lemma fold_left_invariant (A B : Type) (P : A -> Prop) (f : A -> B -> A)
    (l : list B) (a : A) :
  P a -> (forall a' b, In b l -> P a' -> P (f a' b)) -> P (fold_left f l a).
Proof.
  revert a. induction l as [|b l IH]; simpl; intros a Ha Hf; [assumption|].
  apply IH; auto.
Qed.

Lemma pam_data_new_inv (n initial_medoid : Z) :
  0 <= initial_medoid < n -> pam_inv n (pam_data_new n initial_medoid).
Proof.
  intros Hm. constructor; simpl.
  - repeat constructor.
  - apply set_erase_ordered, all_objects_ordered.
  - intros o. rewrite set_erase_In, all_objects_In.
    destruct (Z.eq_dec o initial_medoid); intuition lia.
  - intros o [<-|[]]. rewrite set_erase_In. intuition.
  - rewrite repeat_length. lia.
  - rewrite repeat_length. lia.
  - intros m [<-|[]]. apply vec_get_repeat. lia.
  - intros o Ho. left. symmetry. apply vec_get_repeat. lia.
  - intros o Ho. rewrite vec_get_repeat by lia. exact Hm.
Qed.

Lemma add_medoid_inv (n : Z) (s : pam_data) (medoid : Z) :
  pam_inv n s -> 0 <= medoid < n -> pam_inv n (add_medoid medoid s).
Proof.
  intros Hs Hm. constructor; simpl.
  - apply set_insert_ordered, Hs.
  - apply set_erase_ordered, Hs.
  - intros o. rewrite set_insert_In, set_erase_In, (inv_cover Hs o).
    destruct (Z.eq_dec o medoid) as [->|Hne]; [|tauto].
    rewrite <- (inv_cover Hs medoid). tauto.
  - intros o. rewrite set_insert_In, set_erase_In.
    intros [->|Ho] [Hne Hn]; [congruence|]. exact (inv_disjoint Hs _ Ho Hn).
  - rewrite vec_set_length. apply Hs.
  - apply Hs.
  - intros m Hin. destruct (Z.eq_dec medoid m) as [->|Hne].
    + apply vec_get_set_same. rewrite (inv_classification_size Hs). lia.
    + apply set_insert_In in Hin. destruct Hin as [->|Hin]; [congruence|].
      rewrite vec_get_set_other; auto.
      * apply (inv_medoid_self Hs), Hin.
      * apply (inv_medoid_range Hs _ Hin).
  - intros o Ho. apply set_insert_In.
    destruct (Z.eq_dec medoid o) as [->|Hne].
    + left. apply vec_get_set_same. rewrite (inv_classification_size Hs). lia.
    + right. rewrite vec_get_set_other by lia. apply (inv_classified Hs), Ho.
  - apply Hs.
Qed.

Lemma assign_medoid_inv (n : Z) (s : pam_data) (object medoid : Z) :
  pam_inv n s -> In object (nonselected s) -> In medoid (medoids s) ->
  pam_inv n (assign_medoid object medoid s).
Proof.
  intros Hs Ho Hm. pose proof (inv_nonselected_range Hs _ Ho) as Hrange.
  constructor; simpl; try apply Hs.
  - rewrite vec_set_length. apply Hs.
  - intros m Hin. rewrite vec_get_set_other.
    + apply (inv_medoid_self Hs), Hin.
    + apply (inv_medoid_range Hs _ Hin).
    + intros ->. exact (inv_disjoint Hs _ Hin Ho).
  - intros o Hrange'. destruct (Z.eq_dec object o) as [->|Hne].
    + rewrite vec_get_set_same; [assumption|].
      rewrite (inv_classification_size Hs). lia.
    + rewrite vec_get_set_other by lia. apply (inv_classified Hs), Hrange'.
Qed.

Lemma set_second_closest_inv (n : Z) (s : pam_data) (object medoid : Z) :
  pam_inv n s -> 0 <= medoid < n ->
  pam_inv n (set_second_closest object medoid s).
Proof.
  intros Hs Hm. constructor; simpl; try apply Hs.
  - rewrite vec_set_length. apply Hs.
  - intros o Ho. destruct (Z.eq_dec object o) as [->|Hne].
    + rewrite vec_get_set_same; [exact Hm|].
      rewrite (inv_second_size Hs). lia.
    + rewrite vec_get_set_other by lia. apply (inv_second_range Hs), Ho.
Qed.

Lemma reclassify_step_inv (n : Z) (distances : MatrixXd) (s s' : pam_data)
    (object medoid : Z) :
  same_sets_inv n s s' -> In object (nonselected s) -> In medoid (medoids s) ->
  same_sets_inv n s (reclassify_step distances object s' medoid).
Proof.
  intros (Hinv & Hmed & Hnon) Ho Hm. rewrite <- Hnon in Ho. rewrite <- Hmed in Hm.
  unfold reclassify_step.
  destruct (_ =? medoid); [split; [|split]; assumption|].
  destruct (_ <? _)%float.
  - split; [|split]; simpl; try assumption.
    apply set_second_closest_inv; [apply assign_medoid_inv; assumption|].
    apply (inv_medoid_range Hinv), (inv_classified Hinv).
    apply (inv_nonselected_range Hinv), Ho.
  - destruct (_ <? _)%float; (split; [|split]); simpl; try assumption.
    apply set_second_closest_inv; [assumption|].
    apply (inv_medoid_range Hinv), Hm.
Qed.

Lemma reclassify_object_inv (n : Z) (distances : MatrixXd) (s : pam_data)
    (acc : double * pam_data) (object : Z) :
  same_sets_inv n s (snd acc) -> In object (nonselected s) ->
  same_sets_inv n s (snd (reclassify_object distances acc object)).
Proof.
  destruct acc as [total s']. simpl. intros Hs' Ho.
  pose proof Hs' as (_ & Hmed & _). rewrite Hmed.
  apply fold_left_invariant; [assumption|].
  intros a m Hm Ha. apply reclassify_step_inv; assumption.
Qed.

Lemma reclassify_objects_same_sets (n : Z) (distances : MatrixXd) (s : pam_data) :
  pam_inv n s -> same_sets_inv n s (snd (reclassify_objects distances s)).
Proof.
  intros Hs. unfold reclassify_objects.
  apply (fold_left_invariant (fun acc => same_sets_inv n s (snd acc))).
  - split; [|split]; simpl; auto.
  - intros acc o Ho Hacc. apply reclassify_object_inv; assumption.
Qed.

Lemma reclassify_objects_inv (n : Z) (distances : MatrixXd) (s : pam_data) :
  pam_inv n s -> pam_inv n (snd (reclassify_objects distances s)).
Proof. intros Hs. apply (reclassify_objects_same_sets distances Hs). Qed.

(** ** Build keeps the invariant *)

Lemma minCoeff_visit_range (t : list double) (best : double) (index i : Z) :
  0 <= index < i ->
  0 <= snd (fst (fold_left minCoeff_visit t (best, index, i)))
    < i + Z.of_nat (length t).
Proof.
  revert best index i. induction t as [|y t IH]; intros best index i Hi.
  - simpl. lia.
  - cbn [fold_left minCoeff_visit length].
    destruct (y <? best)%float.
    + specialize (IH y i (i + 1)). lia.
    + specialize (IH best index (i + 1)). lia.
Qed.

Lemma minCoeff_range (v : list double) :
  v <> [] -> 0 <= minCoeff v < Z.of_nat (length v).
Proof.
  destruct v as [|x t]; [congruence|]. intros _. unfold minCoeff.
  pose proof (@minCoeff_visit_range t x 0 1). simpl length. lia.
Qed.

Lemma find_initial_medoid_range (distances : MatrixXd) :
  1 <= rows distances ->
  0 <= find_initial_medoid distances < rows distances.
Proof.
  unfold find_initial_medoid, rows. intros Hn.
  rewrite <- (length_map row_sum distances).
  apply minCoeff_range. destruct distances; simpl in *; [lia|congruence].
Qed.

(** [find_next_medoid] answers a nonselected object, or its initial [0]. *)
Lemma find_next_medoid_cases (distances : MatrixXd) (s : pam_data) :
  find_next_medoid distances s = 0 \/
  In (find_next_medoid distances s) (nonselected s).
Proof.
  unfold find_next_medoid.
  apply (fold_left_invariant
           (fun acc : double * Z => snd acc = 0 \/ In (snd acc) (nonselected s))).
  - left. reflexivity.
  - intros [maximum_gain next_medoid] i Hi Hacc. unfold next_medoid_step.
    destruct (_ <? _)%float; simpl; auto.
Qed.

Lemma find_next_medoid_range (n : Z) (distances : MatrixXd) (s : pam_data) :
  pam_inv n s -> 1 <= n -> 0 <= find_next_medoid distances s < n.
Proof.
  intros Hs Hn. destruct (find_next_medoid_cases distances s) as [->|Hin].
  - lia.
  - apply (inv_nonselected_range Hs _ Hin).
Qed.

Lemma build_step_inv (n : Z) (distances : MatrixXd) (s : pam_data) :
  pam_inv n s -> 1 <= n -> pam_inv n (build_step distances s).
Proof.
  intros Hs Hn. unfold build_step.
  apply reclassify_objects_inv, add_medoid_inv; [assumption|].
  apply find_next_medoid_range; assumption.
Qed.

Lemma build_loop_inv (n : Z) (count : nat) (distances : MatrixXd) (s : pam_data) :
  pam_inv n s -> 1 <= n -> pam_inv n (build_loop count distances s).
Proof.
  revert s. induction count as [|count IH]; simpl; intros s Hs Hn; [assumption|].
  apply IH; [apply build_step_inv|]; assumption.
Qed.

Lemma build_inv (k : Z) (distances : MatrixXd) :
  1 <= rows distances -> pam_inv (rows distances) (build k distances).
Proof.
  intros Hn. unfold build.
  apply build_loop_inv; [|assumption].
  apply pam_data_new_inv, find_initial_medoid_range, Hn.
Qed.

(** ** Refine keeps the invariant *)

Lemma find_best_swap_candidate (distances : MatrixXd) (s : pam_data) :
  swap_candidate s (find_best_swap distances s).
Proof.
  unfold find_best_swap.
  apply (fold_left_invariant (swap_candidate s)).
  - left. split; reflexivity.
  - intros acc i Hi Hacc.
    apply (fold_left_invariant (swap_candidate s)); [assumption|].
    intros [[minimum_contribution old_medoid] new_medoid] h Hh Hacc'.
    unfold swap_search_step. destruct (_ <? _)%float; [|assumption].
    right. split; assumption.
Qed.

Lemma swap_medoid_inv (n : Z) (s : pam_data) (old_medoid new_medoid : Z) :
  pam_inv n s -> In old_medoid (medoids s) -> In new_medoid (nonselected s) ->
  pam_inv n (swap_medoid old_medoid new_medoid s).
Proof.
  intros Hs Hold Hnew.
  pose proof (inv_medoid_range Hs _ Hold) as Hrange_old.
  pose proof (inv_nonselected_range Hs _ Hnew) as Hrange_new.
  assert (Hne : new_medoid <> old_medoid)
    by (intros ->; exact (inv_disjoint Hs _ Hold Hnew)).
  assert (Hsize : Z.of_nat (length (vec_set (classification s) new_medoid new_medoid)) = n)
    by (rewrite vec_set_length; apply Hs).
  constructor; simpl.
  - apply set_insert_ordered, set_erase_ordered, Hs.
  - apply set_erase_ordered, set_insert_ordered, Hs.
  - intros o. rewrite set_insert_In, !set_erase_In, set_insert_In.
    pose proof (inv_cover Hs o) as Hcover.
    destruct (Z.eq_dec o new_medoid) as [Hn|Hn];
      destruct (Z.eq_dec o old_medoid) as [Ho|Ho]; subst;
      intuition (auto; congruence).
  - intros o. rewrite set_insert_In, !set_erase_In, set_insert_In.
    pose proof (inv_disjoint Hs o) as Hdisjoint.
    intuition congruence.
  - rewrite length_map. exact Hsize.
  - rewrite length_map. apply Hs.
  - intros m Hin. apply set_insert_In in Hin.
    assert (Hm : 0 <= m < n).
    { destruct Hin as [->|Hin]; [assumption|].
      apply set_erase_In in Hin. apply (inv_medoid_range Hs _ (proj2 Hin)). }
    rewrite vec_get_map by lia. unfold replace_medoid.
    destruct Hin as [->|Hin].
    + rewrite vec_get_set_same by (rewrite (inv_classification_size Hs); lia).
      destruct (_ =? _); reflexivity.
    + apply set_erase_In in Hin. destruct Hin as [Hmo Hin].
      destruct (Z.eq_dec new_medoid m) as [->|Hmn].
      * rewrite vec_get_set_same by (rewrite (inv_classification_size Hs); lia).
        destruct (_ =? _); reflexivity.
      * rewrite vec_get_set_other by lia.
        rewrite (inv_medoid_self Hs _ Hin).
        destruct (m =? old_medoid) eqn:Heq; [apply Z.eqb_eq in Heq; congruence|].
        reflexivity.
  - intros o Ho. rewrite vec_get_map by lia. unfold replace_medoid.
    apply set_insert_In.
    destruct (_ =? old_medoid) eqn:Heq; [left; reflexivity|].
    apply Z.eqb_neq in Heq.
    destruct (Z.eq_dec new_medoid o) as [->|Hon].
    + left. apply vec_get_set_same. rewrite (inv_classification_size Hs). lia.
    + right. rewrite vec_get_set_other in * by lia.
      apply set_erase_In. split; [assumption|]. apply (inv_classified Hs), Ho.
  - intros o Ho. rewrite vec_get_map by (rewrite (inv_second_size Hs); lia).
    unfold replace_medoid. destruct (_ =? old_medoid); [assumption|].
    apply (inv_second_range Hs), Ho.
Qed.

Lemma refine_step_inv (n : Z) (distances : MatrixXd) (s s' : pam_data) :
  pam_inv n s -> refine_step distances s = Some s' -> pam_inv n s'.
Proof.
  intros Hs. unfold refine_step.
  pose proof (find_best_swap_candidate distances s) as Hcand.
  destruct (find_best_swap distances s) as [[minimum_contribution old_medoid] new_medoid].
  destruct (_ && _) eqn:Hcond; [|discriminate].
  intros [= <-].
  apply andb_prop in Hcond. destruct Hcond as [Hcond Hnew].
  apply andb_prop in Hcond. destruct Hcond as [_ Hold].
  apply Z.geb_le in Hold, Hnew.
  destruct Hcand as [[Ho Hn]|[Ho Hn]]; simpl in Ho, Hn; [lia|].
  apply reclassify_objects_inv, swap_medoid_inv; assumption.
Qed.

Lemma refine_inv (n : Z) (fuel : nat) (distances : MatrixXd) (s s' : pam_data) :
  pam_inv n s -> refine fuel distances s = Some s' -> pam_inv n s'.
Proof.
  revert s. induction fuel as [|fuel IH]; simpl; intros s Hs; [discriminate|].
  destruct (refine_step distances s) as [s1|] eqn:Hstep.
  - apply IH. eapply refine_step_inv; eassumption.
  - intros [= <-]. assumption.
Qed.

(** ** Comparison of binary64 numbers *)

Lemma SFcompare_antisym (x y : spec_float) :
  SFcompare y x = option_map CompOpp (SFcompare x y).
Proof.
  destruct x as [sx|sx| |sx mx ex], y as [sy|sy| |sy my ey]; simpl;
    try reflexivity;
    try (destruct sx; reflexivity); try (destruct sy; reflexivity);
    try (destruct sx, sy; reflexivity).
  destruct sx, sy; simpl; try reflexivity;
    rewrite (Z.compare_antisym ex ey); destruct (ex ?= ey); simpl; try reflexivity;
    rewrite (Pos.compare_cont_antisym mx my Eq); simpl;
    try rewrite CompOpp_involutive; reflexivity.
Qed.

Lemma is_nan_false_compare (x y : double) :
  is_nan x = false -> is_nan y = false ->
  SFcompare (Prim2SF x) (Prim2SF y) <> None.
Proof.
  unfold is_nan. rewrite !eqb_spec. unfold SFeqb.
  destruct (Prim2SF x) as [[|]|[|]| |[|] ? ?], (Prim2SF y) as [[|]|[|]| |[|] ? ?];
    simpl; discriminate.
Qed.

(** Between numbers, [!(x < y)] is [y <= x]. *)
Lemma ltb_false_leb (x y : double) :
  is_nan x = false -> is_nan y = false ->
  (x <? y)%float = false -> (y <=? x)%float = true.
Proof.
  intros Hx Hy. pose proof (is_nan_false_compare _ _ Hx Hy) as Hc.
  rewrite ltb_spec, leb_spec. unfold SFltb, SFleb.
  rewrite (SFcompare_antisym (Prim2SF x) (Prim2SF y)).
  destruct (SFcompare (Prim2SF x) (Prim2SF y)) as [[| |]|]; simpl; congruence.
Qed.

Lemma ltb_true_leb_false (x y : double) :
  (x <? y)%float = true -> (y <=? x)%float = false.
Proof.
  rewrite ltb_spec, leb_spec. unfold SFltb, SFleb.
  rewrite (SFcompare_antisym (Prim2SF x) (Prim2SF y)).
  destruct (SFcompare (Prim2SF x) (Prim2SF y)) as [[| |]|]; simpl; congruence.
Qed.

(** ** The order of binary64 numbers *)

Lemma SFltb_trans (x y z : spec_float) :
  SFltb x y = true -> SFltb y z = true -> SFltb x z = true.
Proof. unfold SFltb, SFcompare. order_cases x y z. Qed.

Lemma SFleb_ltb_trans (x y z : spec_float) :
  SFleb x y = true -> SFltb y z = true -> SFltb x z = true.
Proof. unfold SFleb, SFltb, SFcompare. order_cases x y z. Qed.

Lemma SFcompare_refl (x : spec_float) :
  x <> S754_nan -> SFcompare x x = Some Eq.
Proof.
  destruct x as [[|]|[|]| |[|] m e]; simpl; try reflexivity; try congruence;
    intros _; rewrite Z.compare_refl;
    change (Pos.compare_cont Eq m m) with (Pos.compare m m);
    rewrite Pos.compare_refl; reflexivity.
Qed.

Lemma ltb_trans (x y z : double) :
  (x <? y)%float = true -> (y <? z)%float = true -> (x <? z)%float = true.
Proof. rewrite !ltb_spec. apply SFltb_trans. Qed.

Lemma leb_ltb_trans (x y z : double) :
  (x <=? y)%float = true -> (y <? z)%float = true -> (x <? z)%float = true.
Proof. rewrite leb_spec, !ltb_spec. apply SFleb_ltb_trans. Qed.

Lemma ltb_irrefl (x : double) : (x <? x)%float = false.
Proof.
  rewrite ltb_spec. unfold SFltb.
  destruct (Prim2SF x) eqn:Hx; try reflexivity;
    rewrite SFcompare_refl by discriminate; reflexivity.
Qed.

(** What compares below another number is a number. *)
Lemma ltb_true_number (x y : double) :
  (x <? y)%float = true -> is_nan x = false.
Proof.
  unfold is_nan. rewrite ltb_spec, eqb_spec. unfold SFltb, SFeqb.
  destruct (Prim2SF x) eqn:Hx; try (simpl; discriminate);
    rewrite SFcompare_refl by discriminate; reflexivity.
Qed.

(** ** The distance matrix *)

Lemma coeff_number (distances : MatrixXd) (i j : Z) :
  all_numbers distances = true -> is_nan (coeff distances i j) = false.
Proof.
  unfold all_numbers, coeff. intros Hall.
  rewrite forallb_forall in Hall.
  destruct (nth_in_or_default (Z.to_nat i) distances []) as [Hrow|Hrow].
  - specialize (Hall _ Hrow). rewrite forallb_forall in Hall.
    destruct (nth_in_or_default (Z.to_nat j) (nth (Z.to_nat i) distances []) 0%float)
      as [Hx|Hx].
    + apply negb_true_iff, Hall, Hx.
    + rewrite Hx. reflexivity.
  - rewrite Hrow. destruct (Z.to_nat j); reflexivity.
Qed.

Lemma leb_true_number (x y : double) :
  (x <=? y)%float = true -> is_nan y = false.
Proof.
  unfold is_nan. rewrite leb_spec, eqb_spec. unfold SFleb, SFeqb.
  destruct (Prim2SF y) eqn:Hy;
    try (destruct (Prim2SF x) as [[|]|[|]| |[|] ? ?]; simpl; discriminate);
    rewrite SFcompare_refl by discriminate; reflexivity.
Qed.

(** A valid distance matrix has no NaN entry. *)
Lemma valid_distance_matrix_numbers (distances : MatrixXd) :
  valid_distance_matrix distances = true -> all_numbers distances = true.
Proof.
  unfold valid_distance_matrix, all_numbers. intros Hvalid.
  apply andb_prop in Hvalid. destruct Hvalid as [Hsquare Hentries].
  rewrite forallb_forall in Hsquare, Hentries.
  apply forallb_forall. intros row Hrow. apply forallb_forall. intros x Hx.
  apply negb_true_iff.
  destruct (In_nth _ _ [] Hrow) as (i & Hi & Hnth_i).
  destruct (In_nth _ _ 0%float Hx) as (j & Hj & Hnth_j).
  pose proof (Hsquare _ Hrow) as Hlen. apply Nat.eqb_eq in Hlen.
  assert (Hobj : forall m, (m < length distances)%nat ->
                   In (Z.of_nat m) (all_objects (rows distances)))
    by (intros m Hm; apply all_objects_In; unfold rows; lia).
  specialize (Hentries _ (Hobj i Hi)).
  apply andb_prop in Hentries. destruct Hentries as [_ Hrow_i].
  rewrite forallb_forall in Hrow_i.
  assert (Hj' : (j < length distances)%nat) by (rewrite <- Hlen; exact Hj).
  specialize (Hrow_i _ (Hobj j Hj')).
  apply andb_prop in Hrow_i. destruct Hrow_i as [Hnonneg _].
  unfold coeff in Hnonneg. rewrite !Nat2Z.id in Hnonneg. subst x row.
  exact (leb_true_number Hnonneg).
Qed.

(** ** The swap cost (C3) *)

Lemma set_erase_filter (x : Z) (s : list Z) :
  set_erase x s = filter (fun j => negb (j =? x)) s.
Proof.
  induction s as [|y t IH]; simpl; [reflexivity|].
  rewrite (Z.eqb_sym y x). destruct (x =? y); simpl; congruence.
Qed.

Lemma fold_left_add_map (A : Type) (f : A -> double) (l : list A) (a : double) :
  fold_left (fun total j => (total + f j)%float) l a
  = fold_left PrimFloat.add (map f l) a.
Proof.
  revert a. induction l as [|x l IH]; simpl; intros a; [reflexivity|apply IH].
Qed.

Lemma fold_left_ext_in (A B : Type) (f g : A -> B -> A) (l : list B) (a : A) :
  (forall a' b, In b l -> f a' b = g a' b) -> fold_left f l a = fold_left g l a.
Proof.
  revert a. induction l as [|x l IH]; simpl; intros a Hfg; [reflexivity|].
  rewrite Hfg by auto. apply IH. auto.
Qed.

Lemma swap_contribution_spec (distances : MatrixXd) (i h : Z)
    (clustering : pam_data) (j : Z) :
  all_numbers distances = true ->
  swap_contribution distances i h clustering j
  = spec_contribution distances i h clustering j.
Proof.
  intros Hall. unfold swap_contribution, spec_contribution.
  destruct (_ <=? _)%float; simpl; [|reflexivity].
  destruct (_ <? _)%float eqn:Hlt; [reflexivity|].
  rewrite (ltb_false_leb (coeff_number _ _ _ Hall) (coeff_number _ _ _ Hall) Hlt).
  reflexivity.
Qed.

(** C3.  Over a distance matrix (no entry a NaN), for every clustering
    state, medoid [i] and nonselected [h], [calculate_swap_cost] is the sum
    over the nonselected objects [j <> h], taken in ascending order, of the
    contribution the specification defines by cases: [d_j_h - d_j_i] when
    [D_j >= d_j_i] and [d_j_h < E_j]; [E_j - d_j_i] when [D_j >= d_j_i] and
    [d_j_h >= E_j]; [d_j_h - D_j] when [D_j < d_j_i] and [D_j > d_j_h];
    0 otherwise. *)
Theorem calculate_swap_cost_spec (distances : MatrixXd) (i h : Z)
    (clustering : pam_data) :
  all_numbers distances = true ->
  calculate_swap_cost distances i h clustering
  = spec_swap_cost distances i h clustering.
Proof.
  intros Hall. unfold calculate_swap_cost, spec_swap_cost.
  rewrite <- set_erase_filter, <- fold_left_add_map.
  apply fold_left_ext_in. intros total j _.
  rewrite swap_contribution_spec by assumption. reflexivity.
Qed.

Lemma calculate_swap_cost_spec_witness :
  let distances := euclidean_distance_matrix line6 in
  all_numbers distances = true
  /\ calculate_swap_cost distances 2 1 (build 2 distances)
     = spec_swap_cost distances 2 1 (build 2 distances).
Proof.
  intros distances.
  assert (Hall : all_numbers distances = true) by (vm_compute; reflexivity).
  split; [exact Hall|].
  exact (@calculate_swap_cost_spec distances 2 1 (build 2 distances) Hall).
Defined.

(** ** The entry point: rejection and the shape of a returned result *)

Section EntryPointFacts.

Variable calculate_distance_matrix : MatrixXd -> MatrixXd.

(** Both rejections are decided on [k] and the rows of the observations
    alone: whatever the provider, it is not consulted. *)
Lemma partition_rejects_small_k (fuel : nat) (k : Z) (matrix : MatrixXd) :
  k < 2 ->
  partition_around_medoids calculate_distance_matrix fuel k matrix
  = Threw "Error: less than two partitions were requested.".
Proof.
  intros Hk. unfold partition_around_medoids.
  destruct (k <? 2) eqn:H; [reflexivity|]. apply Z.ltb_ge in H. lia.
Qed.

Lemma partition_rejects_few_rows (fuel : nat) (k : Z) (matrix : MatrixXd) :
  2 <= k -> rows matrix < k ->
  partition_around_medoids calculate_distance_matrix fuel k matrix
  = Threw "Error: not enough rows to create k partitions.".
Proof.
  intros Hk Hrows. unfold partition_around_medoids.
  destruct (k <? 2) eqn:H; [apply Z.ltb_lt in H; lia|].
  destruct (rows matrix <? k) eqn:H'; [reflexivity|]. apply Z.ltb_ge in H'. lia.
Qed.

Lemma partition_accepts (fuel : nat) (k : Z) (matrix : MatrixXd) :
  2 <= k <= rows matrix ->
  partition_around_medoids calculate_distance_matrix fuel k matrix
  = match refine fuel (calculate_distance_matrix matrix)
            (build k (calculate_distance_matrix matrix)) with
    | Some clustering =>
        Returned {| pam_result.medoids := medoids clustering;
                    pam_result.classification := classification clustering |}
    | None => OutOfFuel
    end.
Proof.
  intros Hk. unfold partition_around_medoids.
  destruct (k <? 2) eqn:H; [apply Z.ltb_lt in H; lia|].
  destruct (rows matrix <? k) eqn:H'; [apply Z.ltb_lt in H'; lia|].
  reflexivity.
Qed.

Lemma partition_throws_iff (fuel : nat) (k : Z) (matrix : MatrixXd) :
  (exists what,
      partition_around_medoids calculate_distance_matrix fuel k matrix
      = Threw what)
  <-> k < 2 \/ rows matrix < k.
Proof.
  split.
  - intros [what Hthrew].
    destruct (Z_lt_dec k 2) as [|Hk]; [auto|].
    destruct (Z_lt_dec (rows matrix) k) as [|Hrows]; [auto|].
    rewrite partition_accepts in Hthrew by lia.
    destruct (refine _ _ _); discriminate.
  - intros Hbad. destruct (Z_lt_dec k 2) as [Hk|Hk].
    + eexists. apply partition_rejects_small_k, Hk.
    + eexists. apply partition_rejects_few_rows; lia.
Qed.

Lemma partition_returned (fuel : nat) (k : Z) (matrix : MatrixXd)
    (final_clustering : pam_result.t) :
  partition_around_medoids calculate_distance_matrix fuel k matrix
  = Returned final_clustering ->
  2 <= k <= rows matrix /\
  exists clustering,
    refine fuel (calculate_distance_matrix matrix)
      (build k (calculate_distance_matrix matrix)) = Some clustering
    /\ pam_result.medoids final_clustering = medoids clustering
    /\ pam_result.classification final_clustering = classification clustering.
Proof.
  unfold partition_around_medoids.
  destruct (k <? 2) eqn:Hk; [discriminate|].
  destruct (rows matrix <? k) eqn:Hrows; [discriminate|].
  apply Z.ltb_ge in Hk, Hrows.
  destruct (refine _ _ _) as [clustering|]; [|discriminate].
  intros [= <-]. split; [lia|]. exists clustering. auto.
Qed.

(** The state a returned result is copied from satisfies the invariant. *)
Lemma partition_returned_inv (fuel : nat) (k : Z) (matrix : MatrixXd)
    (final_clustering : pam_result.t) :
  rows (calculate_distance_matrix matrix) = rows matrix ->
  partition_around_medoids calculate_distance_matrix fuel k matrix
  = Returned final_clustering ->
  exists clustering,
    pam_inv (rows matrix) clustering
    /\ pam_result.medoids final_clustering = medoids clustering
    /\ pam_result.classification final_clustering = classification clustering.
Proof.
  intros Hrows Hret. apply partition_returned in Hret.
  destruct Hret as (Hk & s & Hrefine & Hmed & Hclass).
  exists s. split; [|auto].
  rewrite <- Hrows. eapply refine_inv; [|eassumption].
  apply build_inv. lia.
Qed.

End EntryPointFacts.

(** ** Every point of a run satisfies the invariant *)

Lemma run_point_inv (distances : MatrixXd) (s : pam_data) :
  1 <= rows distances -> run_point distances s -> pam_inv (rows distances) s.
Proof.
  intros Hn Hrun. induction Hrun as [|s Hrun IH|s c old new Hrun IH Hbest Hcond|s Hrun IH].
  - apply pam_data_new_inv, find_initial_medoid_range, Hn.
  - apply add_medoid_inv; [assumption|].
    apply find_next_medoid_range; assumption.
  - pose proof (find_best_swap_candidate distances s) as Hcand.
    rewrite Hbest in Hcand.
    apply andb_prop in Hcond. destruct Hcond as [Hcond Hnew].
    apply andb_prop in Hcond. destruct Hcond as [_ Hold].
    apply Z.geb_le in Hold, Hnew.
    destruct Hcand as [[Ho Hh]|[Ho Hh]]; simpl in Ho, Hh; [lia|].
    apply swap_medoid_inv; assumption.
  - apply reclassify_objects_inv, IH.
Qed.

(** The states [build] and [refine] go through are points of the run. *)
Lemma build_loop_run_point (count : nat) (distances : MatrixXd) (s : pam_data) :
  run_point distances s -> run_point distances (build_loop count distances s).
Proof.
  revert s. induction count as [|count IH]; simpl; intros s Hs; [assumption|].
  apply IH. unfold build_step. apply point_reclassified, point_added, Hs.
Qed.

Lemma build_run_point (k : Z) (distances : MatrixXd) :
  run_point distances (build k distances).
Proof. unfold build. apply build_loop_run_point, point_constructed. Qed.

Lemma refine_step_run_point (distances : MatrixXd) (s s' : pam_data) :
  run_point distances s -> refine_step distances s = Some s' ->
  run_point distances s'.
Proof.
  intros Hs. unfold refine_step.
  destruct (find_best_swap distances s) as [[c old] new] eqn:Hbest.
  destruct (_ && _) eqn:Hcond; [|discriminate].
  intros [= <-]. apply point_reclassified.
  eapply point_swapped; eassumption.
Qed.

Lemma refine_run_point (fuel : nat) (distances : MatrixXd) (s s' : pam_data) :
  run_point distances s -> refine fuel distances s = Some s' ->
  run_point distances s'.
Proof.
  revert s. induction fuel as [|fuel IH]; simpl; intros s Hs; [discriminate|].
  destruct (refine_step distances s) as [s1|] eqn:Hstep.
  - apply IH. eapply refine_step_run_point; eassumption.
  - intros [= <-]. assumption.
Qed.

(** ** The invariants of the result (C8, C9) *)

(** C8.  For every valid input ([2 <= k <= rows(matrix)], the provider
    answering one row per observation), at every point of the run (after
    the constructor, after each [add_medoid], after each [swap_medoid],
    after each reclassification) and in the returned result, every medoid
    [m] of the medoid set satisfies [classification[m] = m]. *)
Theorem medoids_classify_themselves
    (calculate_distance_matrix : MatrixXd -> MatrixXd) (fuel : nat) (k : Z)
    (matrix : MatrixXd) :
  2 <= k <= rows matrix ->
  rows (calculate_distance_matrix matrix) = rows matrix ->
  (forall s, run_point (calculate_distance_matrix matrix) s ->
     forall m, In m (medoids s) -> vec_get (classification s) m = m)
  /\ (forall final_clustering,
        partition_around_medoids calculate_distance_matrix fuel k matrix
        = Returned final_clustering ->
        forall m, In m (pam_result.medoids final_clustering) ->
          vec_get (pam_result.classification final_clustering) m = m).
Proof.
  intros Hk Hrows. split.
  - intros s Hs m Hm.
    apply (inv_medoid_self (run_point_inv (distances := calculate_distance_matrix matrix)
                              ltac:(lia) Hs)), Hm.
  - intros r Hret m Hm.
    destruct (partition_returned_inv _ _ _ _ Hrows Hret) as (s & Hs & Hmed & Hclass).
    rewrite Hmed in Hm. rewrite Hclass. apply (inv_medoid_self Hs), Hm.
Qed.

Lemma medoids_classify_themselves_witness :
  2 <= 2 <= rows two_pairs
  /\ rows (euclidean_distance_matrix two_pairs) = rows two_pairs
  /\ partition_around_medoids euclidean_distance_matrix 5 2 two_pairs
     = Returned {| pam_result.medoids := [1; 2];
                   pam_result.classification := [1; 1; 2; 2] |}
  /\ ((forall s, run_point (euclidean_distance_matrix two_pairs) s ->
         forall m, In m (medoids s) -> vec_get (classification s) m = m)
      /\ (forall final_clustering,
            partition_around_medoids euclidean_distance_matrix 5 2 two_pairs
            = Returned final_clustering ->
            forall m, In m (pam_result.medoids final_clustering) ->
              vec_get (pam_result.classification final_clustering) m = m)).
Proof.
  split; [vm_compute; split; discriminate|].
  split; [reflexivity|].
  split; [vm_compute; reflexivity|].
  apply medoids_classify_themselves.
  - vm_compute. split; discriminate.
  - reflexivity.
Defined.

(** C9.  In the result [partition_around_medoids] returns, every object
    [o] of [0 .. n-1], [n] the rows of the observations, is classified to
    a member of the medoid set. *)
Theorem objects_classified_to_medoids
    (calculate_distance_matrix : MatrixXd -> MatrixXd) (fuel : nat) (k : Z)
    (matrix : MatrixXd) (final_clustering : pam_result.t) :
  rows (calculate_distance_matrix matrix) = rows matrix ->
  partition_around_medoids calculate_distance_matrix fuel k matrix
  = Returned final_clustering ->
  forall o, 0 <= o < rows matrix ->
    In (vec_get (pam_result.classification final_clustering) o)
       (pam_result.medoids final_clustering).
Proof.
  intros Hrows Hret o Ho.
  destruct (partition_returned_inv _ _ _ _ Hrows Hret) as (s & Hs & Hmed & Hclass).
  rewrite Hmed, Hclass. apply (inv_classified Hs), Ho.
Qed.

Lemma objects_classified_to_medoids_witness :
  rows (euclidean_distance_matrix line3) = rows line3
  /\ partition_around_medoids euclidean_distance_matrix 3 2 line3
     = Returned {| pam_result.medoids := [0; 1];
                   pam_result.classification := [0; 1; 1] |}
  /\ forall o, 0 <= o < rows line3 ->
       In (vec_get [0; 1; 1] o) [0; 1].
Proof.
  split; [reflexivity|].
  split; [vm_compute; reflexivity|].
  apply (@objects_classified_to_medoids euclidean_distance_matrix 3 2 line3
           {| pam_result.medoids := [0; 1];
              pam_result.classification := [0; 1; 1] |}).
  - reflexivity.
  - vm_compute. reflexivity.
Defined.

(** ** Loops that keep a running extremum *)

Section RunningExtremum.

(** A loop over [B] whose state carries the best score seen: a step
    replaces it by the score of its element when that comes before it. *)
Variables T B : Type.
Variable value : T -> double.
Variable score : B -> double.
Variable before : double -> double -> bool.
Variable step : T -> B -> T.

Hypothesis before_trans :
  forall x y z, before x y = true -> before y z = true -> before x z = true.
Hypothesis before_irrefl : forall x, before x x = false.
Hypothesis step_cases :
  forall a b,
    (before (score b) (value a) = true /\ value (step a b) = score b)
    \/ (before (score b) (value a) = false /\ step a b = a).

Lemma fold_left_keeps_bound (l : list B) (a : T) (x : double) :
  before x (value a) = false -> before x (value (fold_left step l a)) = false.
Proof.
  revert a. induction l as [|b l IH]; simpl; intros a Hbound; [exact Hbound|].
  apply IH. destruct (step_cases a b) as [[Hb Hv]|[_ ->]]; [|exact Hbound].
  rewrite Hv. destruct (before x (score b)) eqn:Hx; [|reflexivity].
  rewrite (before_trans Hx Hb) in Hbound. discriminate.
Qed.

(** No element of the loop comes before the final value. *)
Lemma fold_left_extremum (l : list B) (a : T) (b : B) :
  In b l -> before (score b) (value (fold_left step l a)) = false.
Proof.
  revert a. induction l as [|b' l IH]; simpl; intros a Hin; [contradiction|].
  destruct Hin as [->|Hin]; [|apply IH, Hin].
  apply fold_left_keeps_bound.
  destruct (step_cases a b) as [[_ Hv]|[Hb ->]]; [|exact Hb].
  rewrite Hv. apply before_irrefl.
Qed.

End RunningExtremum.

(** ** The search of [refine] finds a minimum *)

Lemma fold_left_pair_row (A B C : Type) (f : B -> A -> C -> A)
    (i : B) (l2 : list C) (a : A) :
  fold_left (f i) l2 a
  = fold_left (fun acc p => f (fst p) acc (snd p)) (map (fun h => (i, h)) l2) a.
Proof.
  revert a. induction l2 as [|h l2 IH]; simpl; intros a; [reflexivity|apply IH].
Qed.

Lemma fold_left_pairs (A B C : Type) (f : B -> A -> C -> A)
    (l1 : list B) (l2 : list C) (a : A) :
  fold_left (fun acc i => fold_left (f i) l2 acc) l1 a
  = fold_left (fun acc p => f (fst p) acc (snd p)) (list_prod l1 l2) a.
Proof.
  revert a. induction l1 as [|i l1 IH]; simpl; intros a; [reflexivity|].
  rewrite fold_left_app, IH, <- fold_left_pair_row. reflexivity.
Qed.

Lemma find_best_swap_state (distances : MatrixXd) (s : pam_data) :
  search_state s (find_best_swap distances s).
Proof.
  unfold find_best_swap. rewrite fold_left_pairs.
  apply (fold_left_invariant (search_state s)).
  - split; [reflexivity|left; reflexivity].
  - intros [[minimum_contribution old_medoid] new_medoid] [i h] Hin Hacc.
    apply in_prod_iff in Hin. unfold swap_search_step. simpl fst. simpl snd.
    destruct (_ <? _)%float eqn:Hlt; [|assumption].
    split; simpl; [|right; assumption].
    eapply ltb_true_number, Hlt.
Qed.

(** No swap costs less than the minimum the search answers. *)
Lemma find_best_swap_minimum (distances : MatrixXd) (s : pam_data) (i h : Z) :
  In i (medoids s) -> In h (nonselected s) ->
  (calculate_swap_cost distances i h s <? fst (fst (find_best_swap distances s)))%float
  = false.
Proof.
  intros Hi Hh. unfold find_best_swap. rewrite fold_left_pairs.
  apply (fold_left_extremum
           (fun acc : double * Z * Z => fst (fst acc))
           (fun p : Z * Z => calculate_swap_cost distances (fst p) (snd p) s)
           PrimFloat.ltb
           (fun acc p => swap_search_step distances s (fst p) acc (snd p))
           ltb_trans ltb_irrefl) with (b := (i, h)).
  - intros [[minimum_contribution old_medoid] new_medoid] [i' h'].
    unfold swap_search_step. simpl.
    destruct (_ <? _)%float; [left|right]; split; reflexivity.
  - apply in_prod; assumption.
Qed.

(** When the loop of [refine] exits, no swap has a negative cost. *)
Lemma refine_step_None_no_improving_swap (n : Z) (distances : MatrixXd)
    (s : pam_data) (i h : Z) :
  pam_inv n s -> refine_step distances s = None ->
  In i (medoids s) -> In h (nonselected s) ->
  (calculate_swap_cost distances i h s <? 0)%float = false.
Proof.
  intros Hs Hstep Hi Hh.
  pose proof (find_best_swap_minimum distances s i h Hi Hh) as Hmin.
  pose proof (find_best_swap_state distances s) as [Hnum Hpair].
  unfold refine_step in Hstep.
  destruct (find_best_swap distances s) as [[minimum_contribution old_medoid] new_medoid].
  simpl in Hmin, Hnum, Hpair.
  destruct (calculate_swap_cost distances i h s <? 0)%float eqn:Hneg; [|reflexivity].
  exfalso.
  assert (Hlt : (minimum_contribution <? 0)%float = true).
  { eapply leb_ltb_trans; [|exact Hneg].
    apply ltb_false_leb; [eapply ltb_true_number, Hneg|assumption|assumption]. }
  rewrite Hlt in Hstep.
  destruct Hpair as [[= -> -> ->]|[Hold Hnew]]; [vm_compute in Hlt; discriminate|].
  apply (inv_medoid_range Hs) in Hold. apply (inv_nonselected_range Hs) in Hnew.
  destruct (old_medoid >=? 0) eqn:Ho; [|rewrite Z.geb_leb in Ho; apply Z.leb_gt in Ho; lia].
  destruct (new_medoid >=? 0) eqn:Hn; [|rewrite Z.geb_leb in Hn; apply Z.leb_gt in Hn; lia].
  discriminate.
Qed.

(** ** Refine is a fixed point (C7) *)

Lemma refine_Some_step_None (fuel : nat) (distances : MatrixXd) (s s' : pam_data) :
  refine fuel distances s = Some s' -> refine_step distances s' = None.
Proof.
  revert s. induction fuel as [|fuel IH]; simpl; intros s; [discriminate|].
  destruct (refine_step distances s) as [s1|] eqn:Hstep.
  - apply IH.
  - intros [= <-]. exact Hstep.
Qed.

(** C7.  Running [refine] again on the state a completed [refine] has
    produced performs no swap and leaves the state as it is: the loop
    exits at its first iteration, since in that state no swap of a medoid
    for a nonselected object has a cost below zero. *)
Theorem refine_is_fixed_point (n : Z) (fuel : nat) (distances : MatrixXd)
    (s s' : pam_data) :
  pam_inv n s ->
  refine fuel distances s = Some s' ->
  (forall fuel',
      refine (S fuel') distances s' = Some s'
      /\ swaps_performed (S fuel') distances s' = Some 0%nat)
  /\ refine_step distances s' = None
  /\ (forall i h, In i (medoids s') -> In h (nonselected s') ->
        (calculate_swap_cost distances i h s' <? 0)%float = false).
Proof.
  intros Hs Hrefine.
  pose proof (refine_Some_step_None _ _ _ Hrefine) as Hstep.
  assert (Hs' : pam_inv n s') by (eapply refine_inv; eassumption).
  split; [|split].
  - intros fuel'. simpl. rewrite Hstep. split; reflexivity.
  - exact Hstep.
  - intros i h Hi Hh.
    eapply refine_step_None_no_improving_swap; eassumption.
Qed.

Lemma refine_is_fixed_point_witness :
  let distances := euclidean_distance_matrix two_pairs in
  let s := build 2 distances in
  let s' := {| medoids := [1; 2]; nonselected := [0; 3];
               classification := [1; 1; 2; 2];
               second_closest_medoid := [1; 1; 1; 1] |} in
  pam_inv 4 s
  /\ refine 3 distances s = Some s'
  /\ ((forall fuel',
          refine (S fuel') distances s' = Some s'
          /\ swaps_performed (S fuel') distances s' = Some 0%nat)
      /\ refine_step distances s' = None
      /\ (forall i h, In i (medoids s') -> In h (nonselected s') ->
            (calculate_swap_cost distances i h s' <? 0)%float = false)).
Proof.
  intros distances s s'.
  assert (Hs : pam_inv 4 s) by (apply (@build_inv 2 distances); vm_compute; discriminate).
  assert (Hrefine : refine 3 distances s = Some s') by (vm_compute; reflexivity).
  split; [exact Hs|]. split; [exact Hrefine|].
  exact (@refine_is_fixed_point 4 3 distances s s' Hs Hrefine).
Defined.

(** ** Build and the candidates without gain (C1, C5, C6, C10) *)

Lemma find_next_medoid_no_update (distances : MatrixXd) (s : pam_data)
    (candidates : list Z) (acc : double * Z) :
  (forall i, In i candidates ->
     (fst acc <? gain distances s i)%float = false) ->
  fold_left (next_medoid_step distances s) candidates acc = acc.
Proof.
  revert acc. induction candidates as [|i candidates IH]; simpl; intros acc Hgain;
    [reflexivity|].
  assert (Hstep : next_medoid_step distances s acc i = acc).
  { destruct acc as [maximum_gain next_medoid]. unfold next_medoid_step.
    specialize (Hgain i (or_introl eq_refl)). simpl in Hgain.
    rewrite Hgain. reflexivity. }
  rewrite Hstep. apply IH. auto.
Qed.

(** The single candidate left has no other object to gain from. *)
Lemma gain_last_candidate (distances : MatrixXd) (s : pam_data) (i : Z) :
  nonselected s = [i] -> gain distances s i = 0%float.
Proof.
  intros Hlast. unfold gain. rewrite Hlast. simpl. rewrite Z.eqb_refl. reflexivity.
Qed.

Lemma find_next_medoid_last_candidate (distances : MatrixXd) (s : pam_data) (i : Z) :
  nonselected s = [i] -> find_next_medoid distances s = 0.
Proof.
  intros Hlast. unfold find_next_medoid.
  rewrite find_next_medoid_no_update; [reflexivity|].
  intros j Hj. rewrite Hlast in Hj. destruct Hj as [<-|[]].
  rewrite (gain_last_candidate distances s Hlast). reflexivity.
Qed.

(** No candidate has a gain above the maximum the loop of
    [find_next_medoid] ends with. *)
Lemma find_next_medoid_maximum (distances : MatrixXd) (s : pam_data) (i : Z) :
  In i (nonselected s) ->
  (fst (fold_left (next_medoid_step distances s) (nonselected s) (DBL_MIN, 0%Z))
   <? gain distances s i)%float = false.
Proof.
  intros Hi.
  apply (fold_left_extremum
           (fun acc : double * Z => fst acc) (gain distances s)
           (fun x y => (y <? x)%float) (next_medoid_step distances s)).
  - intros x y z Hxy Hyz. exact (ltb_trans Hyz Hxy).
  - apply ltb_irrefl.
  - intros [maximum_gain next_medoid] j. unfold next_medoid_step. simpl.
    destruct (_ <? _)%float; [left|right]; split; reflexivity.
  - exact Hi.
Qed.

(** Once a candidate has been taken, the loop of [find_next_medoid] and the
    selection of the specification proceed alike. *)
Lemma next_medoid_after_first (distances : MatrixXd) (s : pam_data)
    (candidates : list Z) (b : Z) :
  exists b',
    fold_left (next_medoid_step distances s) candidates (gain distances s b, b)
    = (gain distances s b', b')
    /\ fold_left
         (fun best i =>
            match best with
            | None => Some i
            | Some b0 =>
                if (gain distances s b0 <? gain distances s i)%float
                then Some i else best
            end) candidates (Some b)
       = Some b'.
Proof.
  revert b. induction candidates as [|i candidates IH]; simpl; intros b.
  - exists b. split; reflexivity.
  - destruct (_ <? _)%float; apply IH.
Qed.

Lemma next_medoid_before_first (distances : MatrixXd) (s : pam_data)
    (candidates : list Z) (best : option Z) (x : double) :
  below_threshold distances s best ->
  (forall i, In i candidates -> is_nan (gain distances s i) = false) ->
  (fst (fold_left (next_medoid_step distances s) candidates (DBL_MIN, 0%Z)) <? x)%float
  = false ->
  (DBL_MIN <? x)%float = true ->
  fold_left
    (fun best i =>
       match best with
       | None => Some i
       | Some b0 =>
           if (gain distances s b0 <? gain distances s i)%float
           then Some i else best
       end) candidates best
  = Some (snd (fold_left (next_medoid_step distances s) candidates (DBL_MIN, 0))).
Proof.
  intros Hbest Hnum Hmax Habove. revert best Hbest Hnum Hmax.
  induction candidates as [|i candidates IH]; intros best Hbest Hnum Hmax.
  - simpl in Hmax. rewrite Habove in Hmax. discriminate.
  - cbn [fold_left] in *.
    assert (Hstep : next_medoid_step distances s (DBL_MIN, 0) i
                    = if (DBL_MIN <? gain distances s i)%float
                      then (gain distances s i, i) else (DBL_MIN, 0))
      by reflexivity.
    rewrite Hstep in *. clear Hstep.
    assert (Hnum_i : is_nan (gain distances s i) = false)
      by (apply Hnum; left; reflexivity).
    destruct (DBL_MIN <? gain distances s i)%float eqn:Hi.
    + assert (Hbest' : match best with
                        | None => Some i
                        | Some b0 =>
                            if (gain distances s b0 <? gain distances s i)%float
                            then Some i else best
                        end = Some i).
      { destruct best as [b0|]; [|reflexivity].
        destruct Hbest as [Hb0 Hlow].
        rewrite (leb_ltb_trans (ltb_false_leb (x := DBL_MIN) eq_refl Hb0 Hlow) Hi).
        reflexivity. }
      rewrite Hbest'.
      destruct (next_medoid_after_first distances s candidates i)
        as (b' & Hcode & Hspec).
      rewrite Hcode, Hspec. reflexivity.
    + apply IH; [|intros j Hj; apply Hnum; right; exact Hj|exact Hmax].
      destruct best as [b0|]; [|simpl; split; assumption].
      destruct (gain distances s b0 <? gain distances s i)%float;
        [simpl; split; assumption|exact Hbest].
Qed.

(** When the gains are numbers and one of them is above [DBL_MIN],
    [find_next_medoid] answers the candidate the specification selects:
    the first one of maximum gain. *)
Lemma find_next_medoid_above_threshold (distances : MatrixXd) (s : pam_data) :
  (forall i, In i (nonselected s) -> is_nan (gain distances s i) = false) ->
  (exists i, In i (nonselected s) /\ (DBL_MIN <? gain distances s i)%float = true) ->
  spec_next_medoid distances s = Some (find_next_medoid distances s).
Proof.
  intros Hnum [i0 [Hi0 Habove]].
  unfold spec_next_medoid, find_next_medoid.
  apply next_medoid_before_first with (x := gain distances s i0).
  - exact I.
  - exact Hnum.
  - apply find_next_medoid_maximum, Hi0.
  - exact Habove.
Qed.

(** The medoids of a returned result are objects of [0 .. n-1]. *)
Lemma result_medoids_in_range
    (calculate_distance_matrix : MatrixXd -> MatrixXd) (fuel : nat) (k : Z)
    (matrix : MatrixXd) (final_clustering : pam_result.t) :
  rows (calculate_distance_matrix matrix) = rows matrix ->
  partition_around_medoids calculate_distance_matrix fuel k matrix
  = Returned final_clustering ->
  forall m, In m (pam_result.medoids final_clustering) -> 0 <= m < rows matrix.
Proof.
  intros Hrows Hret m Hm.
  destruct (partition_returned_inv _ _ _ _ Hrows Hret) as (s & Hs & Hmed & _).
  rewrite Hmed in Hm. exact (inv_medoid_range Hs _ Hm).
Qed.

(** C1.  Five observations at equal distances and [k = 2] are a valid
    input; the result [partition_around_medoids] returns for them has the
    single medoid 0, not two. *)
Theorem partition_equal_distances_one_medoid :
  2 <= 2 <= rows corners5
  /\ valid_distance_matrix (euclidean_distance_matrix corners5) = true
  /\ forall fuel,
       partition_around_medoids euclidean_distance_matrix (S fuel) 2 corners5
       = Returned {| pam_result.medoids := [0];
                     pam_result.classification := [0; 0; 0; 0; 0] |}.
Proof.
  split; [vm_compute; split; discriminate|].
  split; [vm_compute; reflexivity|].
  intros fuel. vm_compute. reflexivity.
Qed.

(** C5.  In the first Build iteration over five observations at equal
    distances the candidates are 1, 2, 3, 4, each of gain 0: the candidate
    of maximum gain with the lowest index is 1, and [find_next_medoid]
    answers 0, which is not a candidate. *)
Theorem find_next_medoid_misses_candidate :
  let distances := euclidean_distance_matrix corners5 in
  let clustering :=
    pam_data_new (rows distances) (find_initial_medoid distances) in
  nonselected clustering = [1; 2; 3; 4]
  /\ map (gain distances clustering) (nonselected clustering)
     = [0; 0; 0; 0]%float
  /\ spec_next_medoid distances clustering = Some 1
  /\ find_next_medoid distances clustering = 0
  /\ ~ In (find_next_medoid distances clustering) (nonselected clustering).
Proof.
  vm_compute. repeat split; try reflexivity.
  intros [H|[H|[H|[H|[]]]]]; discriminate.
Qed.

(** C6.  Two observations and [k = 2 = n]: Build adds no medoid to the
    initial one, and the result classifies object 1 to 0, not to itself. *)
Theorem partition_k_equals_n_two_points :
  rows two_points = 2
  /\ medoids (build 2 (euclidean_distance_matrix two_points)) = [0]
  /\ forall fuel,
       partition_around_medoids euclidean_distance_matrix (S fuel) 2 two_points
       = Returned {| pam_result.medoids := [0];
                     pam_result.classification := [0; 0] |}
       /\ vec_get [0; 0] 1 <> 1.
Proof.
  split; [reflexivity|]. split; [vm_compute; reflexivity|].
  intros fuel. split; [vm_compute; reflexivity|vm_compute; discriminate].
Qed.

(** C10, as stated, fails on three points of a line: the initial medoid is
    1, no candidate has a gain above [DBL_MIN], [find_next_medoid] answers
    0, and [add_medoid(0)] moves 0 from the nonselected objects to the
    medoids. *)
Lemma add_medoid_zero_changes_sets :
  let distances := euclidean_distance_matrix line3 in
  let clustering :=
    pam_data_new (rows distances) (find_initial_medoid distances) in
  (forall i, In i (nonselected clustering) ->
     (DBL_MIN <? gain distances clustering i)%float = false)
  /\ find_next_medoid distances clustering = 0
  /\ medoids (add_medoid 0 clustering) <> medoids clustering
  /\ nonselected (add_medoid 0 clustering) <> nonselected clustering.
Proof.
  intros distances clustering. split; [|vm_compute; repeat split; discriminate].
  intros i Hi. vm_compute in Hi.
  destruct Hi as [<-|[<-|[]]]; vm_compute; reflexivity.
Qed.

(** C10, amended.  When no nonselected candidate has a gain above
    [DBL_MIN], [find_next_medoid] answers 0, whether or not 0 is a medoid;
    when 0 is a medoid already, [add_medoid(0)] leaves the medoids and the
    nonselected objects as they are and the Build iteration adds nothing,
    so that Build can end with fewer than [k] medoids. *)
Theorem find_next_medoid_without_gain (n : Z) (distances : MatrixXd)
    (clustering : pam_data) :
  pam_inv n clustering ->
  (forall i, In i (nonselected clustering) ->
     (DBL_MIN <? gain distances clustering i)%float = false) ->
  find_next_medoid distances clustering = 0
  /\ (In 0 (medoids clustering) ->
      medoids (add_medoid 0 clustering) = medoids clustering
      /\ nonselected (add_medoid 0 clustering) = nonselected clustering
      /\ medoids (build_step distances clustering) = medoids clustering)
  /\ (exists k distances',
        2 <= k <= rows distances'
        /\ valid_distance_matrix distances' = true
        /\ Z.of_nat (length (medoids (build k distances'))) < k).
Proof.
  intros Hinv Hgain.
  assert (Hnext : find_next_medoid distances clustering = 0).
  { unfold find_next_medoid. rewrite find_next_medoid_no_update; auto. }
  split; [exact Hnext|]. split.
  - intros Hzero.
    assert (Hmed : medoids (add_medoid 0 clustering) = medoids clustering)
      by (simpl; apply set_insert_member; [apply Hinv|exact Hzero]).
    assert (Hnon : nonselected (add_medoid 0 clustering) = nonselected clustering)
      by (simpl; apply set_erase_absent, (inv_disjoint Hinv), Hzero).
    split; [exact Hmed|]. split; [exact Hnon|].
    unfold build_step. rewrite Hnext.
    assert (Hadd : pam_inv n (add_medoid 0 clustering))
      by (apply add_medoid_inv; [exact Hinv|apply (inv_medoid_range Hinv), Hzero]).
    destruct (reclassify_objects_same_sets distances Hadd) as (_ & Hsame & _).
    rewrite Hsame. exact Hmed.
  - exists 2, (euclidean_distance_matrix two_points).
    vm_compute. repeat split; discriminate.
Qed.

Lemma find_next_medoid_without_gain_witness :
  let distances := euclidean_distance_matrix two_points in
  let clustering := pam_data_new 2 0 in
  pam_inv 2 clustering
  /\ (forall i, In i (nonselected clustering) ->
        (DBL_MIN <? gain distances clustering i)%float = false)
  /\ (find_next_medoid distances clustering = 0
      /\ (In 0 (medoids clustering) ->
          medoids (add_medoid 0 clustering) = medoids clustering
          /\ nonselected (add_medoid 0 clustering) = nonselected clustering
          /\ medoids (build_step distances clustering) = medoids clustering)
      /\ (exists k distances',
            2 <= k <= rows distances'
            /\ valid_distance_matrix distances' = true
            /\ Z.of_nat (length (medoids (build k distances'))) < k)).
Proof.
  intros distances clustering.
  assert (Hinv : pam_inv 2 clustering) by (apply pam_data_new_inv; lia).
  assert (Hgain : forall i, In i (nonselected clustering) ->
                    (DBL_MIN <? gain distances clustering i)%float = false).
  { intros i Hi. vm_compute in Hi. destruct Hi as [<-|[]]. vm_compute. reflexivity. }
  split; [exact Hinv|]. split; [exact Hgain|].
  exact (@find_next_medoid_without_gain 2 distances clustering Hinv Hgain).
Defined.

(** ** Refine on six points of a line (C2, C4) *)

(** On the observations 0, 1, 2, 3, 5, 6 with [k = 2], [build] ends in
    [line6_a]; a swap takes [line6_a] to [line6_b], and a swap takes
    [line6_b] back to [line6_a]. *)
Lemma line6_build : build 2 line6_distances = line6_a.
Proof. vm_compute. reflexivity. Qed.

Lemma line6_step_a : refine_step line6_distances line6_a = Some line6_b.
Proof. vm_compute. reflexivity. Qed.

Lemma line6_step_b : refine_step line6_distances line6_b = Some line6_a.
Proof. vm_compute. reflexivity. Qed.

Lemma line6_refine_cycles (fuel : nat) :
  refine fuel line6_distances line6_a = None
  /\ refine fuel line6_distances line6_b = None.
Proof.
  induction fuel as [|fuel [IHa IHb]]; [split; reflexivity|].
  split; cbn [refine].
  - rewrite line6_step_a. exact IHb.
  - rewrite line6_step_b. exact IHa.
Qed.

(** C2.  The distances of the six observations are a valid distance
    matrix (square, symmetric, non-negative, zero on the diagonal) and
    [k = 2] a valid number of clusters; on the state [build] produces for
    them, the loop of [refine] has not exited after any number of
    iterations. *)
Theorem refine_loops_on_line6 :
  valid_distance_matrix line6_distances = true
  /\ 2 <= 2 <= rows line6_distances
  /\ forall fuel, refine fuel line6_distances (build 2 line6_distances) = None.
Proof.
  split; [vm_compute; reflexivity|].
  split; [vm_compute; split; discriminate|].
  intros fuel. rewrite line6_build. apply line6_refine_cycles.
Qed.

(** C4.  With [k = 2] and the six observations neither rejection applies,
    and [partition_around_medoids] neither raises nor returns a result,
    whatever the number of iterations its loop is given. *)
Theorem partition_never_returns_on_line6 :
  2 <= 2 <= rows line6
  /\ forall fuel,
       partition_around_medoids euclidean_distance_matrix fuel 2 line6
       = OutOfFuel.
Proof.
  split; [vm_compute; split; discriminate|].
  intros fuel. rewrite partition_accepts by (vm_compute; split; discriminate).
  change (euclidean_distance_matrix line6) with line6_distances.
  rewrite line6_build.
  destruct (line6_refine_cycles fuel) as [-> _]. reflexivity.
Qed.

(** * Further properties of the code *)

(** ** The two sets *)

Lemma set_insert_length (x : Z) (s : list Z) :
  ~ In x s -> length (set_insert x s) = S (length s).
Proof.
  induction s as [|y t IH]; simpl; intros Hin; [reflexivity|].
  destruct (x <? y); [reflexivity|].
  destruct (x =? y) eqn:Heq.
  - apply Z.eqb_eq in Heq. exfalso. apply Hin. left. congruence.
  - simpl. rewrite IH; [reflexivity|]. intros Ht. apply Hin. right. exact Ht.
Qed.

Lemma ordered_head_absent (x : Z) (t : list Z) :
  ordered_set (x :: t) -> ~ In x t.
Proof.
  intros Hs Hin. inversion Hs as [|? ? _ Hall]; subst.
  rewrite Forall_forall in Hall. specialize (Hall _ Hin). lia.
Qed.

Lemma set_erase_length (x : Z) (s : list Z) :
  ordered_set s -> In x s -> S (length (set_erase x s)) = length s.
Proof.
  induction s as [|y t IH]; simpl; intros Hs Hin; [contradiction|].
  assert (Ht : ordered_set t) by (inversion Hs; assumption).
  destruct (x =? y) eqn:Heq.
  - apply Z.eqb_eq in Heq. subst y.
    rewrite set_erase_absent by (apply ordered_head_absent, Hs). reflexivity.
  - apply Z.eqb_neq in Heq. simpl. f_equal. apply IH; [exact Ht|].
    destruct Hin as [->|Hin]; [congruence|exact Hin].
Qed.

Lemma set_insert_erase (x : Z) (s : list Z) :
  ordered_set s -> In x s -> set_insert x (set_erase x s) = s.
Proof.
  induction s as [|y t IH]; simpl; intros Hs Hin; [contradiction|].
  assert (Ht : ordered_set t) by (inversion Hs; assumption).
  destruct (x =? y) eqn:Heq.
  - apply Z.eqb_eq in Heq. subst y.
    rewrite set_erase_absent by (apply ordered_head_absent, Hs).
    inversion Hs as [|? ? _ Hall]; subst.
    destruct t as [|z t]; [reflexivity|]. simpl.
    inversion Hall; subst.
    destruct (x <? z) eqn:Hlt; [reflexivity|apply Z.ltb_ge in Hlt; lia].
  - apply Z.eqb_neq in Heq.
    destruct Hin as [->|Hin]; [congruence|].
    inversion Hs as [|? ? _ Hall]; subst.
    rewrite Forall_forall in Hall. specialize (Hall _ Hin).
    simpl. destruct (x <? y) eqn:Hlt; [apply Z.ltb_lt in Hlt; lia|].
    rewrite (proj2 (Z.eqb_neq x y) Heq). f_equal. apply IH; assumption.
Qed.

Lemma set_erase_insert (x : Z) (s : list Z) :
  ~ In x s -> set_erase x (set_insert x s) = s.
Proof.
  induction s as [|y t IH]; simpl; intros Hin.
  - rewrite Z.eqb_refl. reflexivity.
  - destruct (x <? y) eqn:Hlt.
    + simpl. rewrite Z.eqb_refl.
      destruct (x =? y) eqn:Heq.
      * apply Z.eqb_eq in Heq. exfalso. apply Hin. left. congruence.
      * f_equal. apply set_erase_absent. intros Ht. apply Hin. right. exact Ht.
    + destruct (x =? y) eqn:Heq.
      * apply Z.eqb_eq in Heq. exfalso. apply Hin. left. congruence.
      * simpl. rewrite Heq. f_equal. apply IH.
        intros Ht. apply Hin. right. exact Ht.
Qed.

Lemma ordered_set_NoDup (s : list Z) : ordered_set s -> NoDup s.
Proof.
  induction s as [|x t IH]; intros Hs; constructor.
  - apply ordered_head_absent, Hs.
  - apply IH. inversion Hs; assumption.
Qed.

(** X1.  At every point of a run over a matrix with at least one row, the
    medoids and the nonselected objects are kept in ascending order without
    repetition, have no object in common, and together are exactly the
    objects [0 .. n-1]. *)
Theorem run_sets_split_objects (distances : MatrixXd) (s : pam_data) :
  1 <= rows distances ->
  run_point distances s ->
  ordered_set (medoids s) /\ ordered_set (nonselected s)
  /\ NoDup (medoids s ++ nonselected s)
  /\ (forall o, In o (medoids s ++ nonselected s) <-> 0 <= o < rows distances).
Proof.
  intros Hn Hrun. pose proof (run_point_inv Hn Hrun) as Hs.
  split; [apply Hs|]. split; [apply Hs|]. split.
  - apply NoDup_app.
    + apply ordered_set_NoDup, Hs.
    + apply ordered_set_NoDup, Hs.
    + intros o Hm. exact (inv_disjoint Hs o Hm).
  - intros o. rewrite in_app_iff. symmetry. apply (inv_cover Hs).
Qed.

Lemma run_sets_split_objects_witness :
  1 <= rows line6_distances
  /\ run_point line6_distances (build 2 line6_distances)
  /\ ordered_set (medoids (build 2 line6_distances))
  /\ ordered_set (nonselected (build 2 line6_distances))
  /\ NoDup (medoids (build 2 line6_distances) ++ nonselected (build 2 line6_distances))
  /\ (forall o, In o (medoids (build 2 line6_distances)
                      ++ nonselected (build 2 line6_distances))
                <-> 0 <= o < rows line6_distances).
Proof.
  assert (Hn : 1 <= rows line6_distances) by (vm_compute; discriminate).
  split; [exact Hn|]. split; [apply build_run_point|].
  exact (@run_sets_split_objects line6_distances (build 2 line6_distances)
           Hn (build_run_point 2 line6_distances)).
Defined.

(** ** The mutators of the clustering state *)

Lemma list_update_same (v : list Z) (i : nat) :
  list_update v i (nth i v 0) = v.
Proof.
  revert i. induction v as [|y t IH]; intros [|i]; simpl; try reflexivity.
  f_equal. apply IH.
Qed.

Lemma vec_set_same (v : list Z) (i : Z) : vec_set v i (vec_get v i) = v.
Proof.
  unfold vec_set, vec_get. destruct (i <? 0); [reflexivity|apply list_update_same].
Qed.

(** X2.  [add_medoid(m)] for an object [m] that is a medoid already leaves
    the whole state as it is; for a nonselected [m] it moves [m] from the
    nonselected objects to the medoids (one more medoid, one nonselected
    object fewer), classifies [m] to itself and changes no other entry of
    the classification. *)
Theorem add_medoid_effect (n : Z) (s : pam_data) (m : Z) :
  pam_inv n s ->
  0 <= m < n ->
  (In m (medoids s) -> add_medoid m s = s)
  /\ (In m (nonselected s) ->
      length (medoids (add_medoid m s)) = S (length (medoids s))
      /\ S (length (nonselected (add_medoid m s))) = length (nonselected s)
      /\ In m (medoids (add_medoid m s))
      /\ ~ In m (nonselected (add_medoid m s))
      /\ vec_get (classification (add_medoid m s)) m = m
      /\ (forall o, 0 <= o -> o <> m ->
            vec_get (classification (add_medoid m s)) o
            = vec_get (classification s) o)
      /\ second_closest_medoid (add_medoid m s) = second_closest_medoid s).
Proof.
  intros Hs Hm. split.
  - intros Hin. destruct s as [med non cl sc]. unfold add_medoid, assign_medoid.
    simpl in *. f_equal.
    + apply set_insert_member; [apply Hs|exact Hin].
    + apply set_erase_absent. exact (inv_disjoint Hs m Hin).
    + rewrite <- (inv_medoid_self Hs m Hin) at 2. apply vec_set_same.
  - intros Hin.
    assert (Hnot : ~ In m (medoids s))
      by (intros Hmed; exact (inv_disjoint Hs m Hmed Hin)).
    simpl. repeat split.
    + apply set_insert_length, Hnot.
    + apply set_erase_length; [apply Hs|exact Hin].
    + apply set_insert_In. left. reflexivity.
    + rewrite set_erase_In. intros [Hne _]. apply Hne. reflexivity.
    + apply vec_get_set_same. rewrite (inv_classification_size Hs). exact Hm.
    + intros o Ho Hne. apply vec_get_set_other; [exact Ho|congruence].
Qed.

Lemma add_medoid_effect_witness :
  let s := pam_data_new 4 1 in
  pam_inv 4 s
  /\ 0 <= 2 < 4
  /\ ((In 2 (medoids s) -> add_medoid 2 s = s)
      /\ (In 2 (nonselected s) ->
          length (medoids (add_medoid 2 s)) = S (length (medoids s))
          /\ S (length (nonselected (add_medoid 2 s))) = length (nonselected s)
          /\ In 2 (medoids (add_medoid 2 s))
          /\ ~ In 2 (nonselected (add_medoid 2 s))
          /\ vec_get (classification (add_medoid 2 s)) 2 = 2
          /\ (forall o, 0 <= o -> o <> 2 ->
                vec_get (classification (add_medoid 2 s)) o
                = vec_get (classification s) o)
          /\ second_closest_medoid (add_medoid 2 s) = second_closest_medoid s)).
Proof.
  intros s.
  assert (Hs : pam_inv 4 s) by (apply pam_data_new_inv; lia).
  assert (Hm : 0 <= 2 < 4) by lia.
  split; [exact Hs|]. split; [exact Hm|].
  exact (@add_medoid_effect 4 s 2 Hs Hm).
Defined.

(** X3.  [swap_medoid(old, new)] for a medoid [old] and a nonselected
    [new] keeps the number of medoids and of nonselected objects, makes
    [new] a medoid and [old] a nonselected object, and leaves no entry of
    [classification] or [second_closest_medoid] naming [old]: the entries
    that named [old] name [new], [new] is classified to itself, and the
    other entries are unchanged. *)
Theorem swap_medoid_effect (n : Z) (s : pam_data) (old_medoid new_medoid : Z) :
  pam_inv n s ->
  In old_medoid (medoids s) ->
  In new_medoid (nonselected s) ->
  let s' := swap_medoid old_medoid new_medoid s in
  length (medoids s') = length (medoids s)
  /\ length (nonselected s') = length (nonselected s)
  /\ In new_medoid (medoids s') /\ ~ In old_medoid (medoids s')
  /\ In old_medoid (nonselected s') /\ ~ In new_medoid (nonselected s')
  /\ (forall o, 0 <= o < n ->
        vec_get (classification s') o
        = (if (o =? new_medoid) || (vec_get (classification s) o =? old_medoid)
           then new_medoid else vec_get (classification s) o)
        /\ vec_get (second_closest_medoid s') o
           = (if vec_get (second_closest_medoid s) o =? old_medoid
              then new_medoid else vec_get (second_closest_medoid s) o)
        /\ vec_get (classification s') o <> old_medoid
        /\ vec_get (second_closest_medoid s') o <> old_medoid).
Proof.
  intros Hs Hold Hnew s'.
  assert (Hne : new_medoid <> old_medoid)
    by (intros ->; exact (inv_disjoint Hs _ Hold Hnew)).
  assert (Hnew_range : 0 <= new_medoid < n)
    by (apply (inv_nonselected_range Hs), Hnew).
  assert (Hmed_old : ordered_set (set_erase old_medoid (medoids s)))
    by (apply set_erase_ordered, Hs).
  assert (Hnot_new : ~ In new_medoid (set_erase old_medoid (medoids s))).
  { rewrite set_erase_In. intros [_ Hin]. exact (inv_disjoint Hs _ Hin Hnew). }
  assert (Hnot_old : ~ In old_medoid (nonselected s))
    by exact (inv_disjoint Hs _ Hold).
  subst s'. simpl. split; [|split; [|split; [|split; [|split; [|split]]]]].
  - rewrite set_insert_length by exact Hnot_new.
    apply set_erase_length; [apply Hs|exact Hold].
  - apply eq_add_S. rewrite set_erase_length.
    + apply set_insert_length, Hnot_old.
    + apply set_insert_ordered, Hs.
    + apply set_insert_In. right. exact Hnew.
  - apply set_insert_In. left. reflexivity.
  - rewrite set_insert_In, set_erase_In. intros [Heq|[Habs _]]; congruence.
  - rewrite set_erase_In, set_insert_In. split; [congruence|left; reflexivity].
  - rewrite set_erase_In. intros [Habs _]. congruence.
  - intros o Ho.
    rewrite !vec_get_map
      by (rewrite ?vec_set_length, ?(inv_classification_size Hs), ?(inv_second_size Hs);
          exact Ho).
    unfold replace_medoid.
    assert (Hclass : vec_get (vec_set (classification s) new_medoid new_medoid) o
                     = if o =? new_medoid then new_medoid
                       else vec_get (classification s) o).
    { destruct (o =? new_medoid) eqn:Heq.
      - apply Z.eqb_eq in Heq. subst o. apply vec_get_set_same.
        rewrite (inv_classification_size Hs). exact Ho.
      - apply Z.eqb_neq in Heq. apply vec_get_set_other; [lia|congruence]. }
    rewrite Hclass.
    destruct (o =? new_medoid) eqn:Hon; simpl.
    + rewrite (proj2 (Z.eqb_neq new_medoid old_medoid) Hne).
      destruct (vec_get (second_closest_medoid s) o =? old_medoid) eqn:Hsc;
        repeat split; try congruence.
      apply Z.eqb_neq. exact Hsc.
    + destruct (vec_get (classification s) o =? old_medoid) eqn:Hcl;
        destruct (vec_get (second_closest_medoid s) o =? old_medoid) eqn:Hsc;
        repeat split; try congruence;
        try (apply Z.eqb_neq; assumption).
Qed.

Lemma swap_medoid_effect_witness :
  let s := pam_data_new 4 1 in
  let s' := swap_medoid 1 2 s in
  pam_inv 4 s /\ In 1 (medoids s) /\ In 2 (nonselected s)
  /\ (length (medoids s') = length (medoids s)
      /\ length (nonselected s') = length (nonselected s)
      /\ In 2 (medoids s') /\ ~ In 1 (medoids s')
      /\ In 1 (nonselected s') /\ ~ In 2 (nonselected s')
      /\ (forall o, 0 <= o < 4 ->
            vec_get (classification s') o
            = (if (o =? 2) || (vec_get (classification s) o =? 1)
               then 2 else vec_get (classification s) o)
            /\ vec_get (second_closest_medoid s') o
               = (if vec_get (second_closest_medoid s) o =? 1
                  then 2 else vec_get (second_closest_medoid s) o)
            /\ vec_get (classification s') o <> 1
            /\ vec_get (second_closest_medoid s') o <> 1)).
Proof.
  intros s s'.
  assert (Hs : pam_inv 4 s) by (apply pam_data_new_inv; lia).
  assert (Hold : In 1 (medoids s)) by (left; reflexivity).
  assert (Hnew : In 2 (nonselected s)) by (right; left; reflexivity).
  split; [exact Hs|]. split; [exact Hold|]. split; [exact Hnew|].
  exact (@swap_medoid_effect 4 s 1 2 Hs Hold Hnew).
Defined.

(** X4.  Swapping back restores the two sets: after
    [swap_medoid(old, new)] and then [swap_medoid(new, old)] the medoids
    and the nonselected objects are those before the first swap. *)
Theorem swap_medoid_back (n : Z) (s : pam_data) (old_medoid new_medoid : Z) :
  pam_inv n s ->
  In old_medoid (medoids s) ->
  In new_medoid (nonselected s) ->
  medoids (swap_medoid new_medoid old_medoid
             (swap_medoid old_medoid new_medoid s)) = medoids s
  /\ nonselected (swap_medoid new_medoid old_medoid
                    (swap_medoid old_medoid new_medoid s)) = nonselected s.
Proof.
  intros Hs Hold Hnew. simpl. split.
  - rewrite set_erase_insert.
    + apply set_insert_erase; [apply Hs|exact Hold].
    + rewrite set_erase_In. intros [_ Hin]. exact (inv_disjoint Hs _ Hin Hnew).
  - rewrite set_insert_erase.
    + apply set_erase_insert. exact (inv_disjoint Hs _ Hold).
    + apply set_insert_ordered, Hs.
    + apply set_insert_In. right. exact Hnew.
Qed.

Lemma swap_medoid_back_witness :
  let s := pam_data_new 4 1 in
  pam_inv 4 s /\ In 1 (medoids s) /\ In 2 (nonselected s)
  /\ medoids (swap_medoid 2 1 (swap_medoid 1 2 s)) = medoids s
  /\ nonselected (swap_medoid 2 1 (swap_medoid 1 2 s)) = nonselected s.
Proof.
  intros s.
  assert (Hs : pam_inv 4 s) by (apply pam_data_new_inv; lia).
  assert (Hold : In 1 (medoids s)) by (left; reflexivity).
  assert (Hnew : In 2 (nonselected s)) by (right; left; reflexivity).
  split; [exact Hs|]. split; [exact Hold|]. split; [exact Hnew|].
  exact (@swap_medoid_back 4 s 1 2 Hs Hold Hnew).
Defined.

(** ** Loops that keep a running best under an invariant *)

Section RunningBest.

(** As [RunningExtremum], for a step that may change the rest of the state
    when it keeps the best value, and whose cases hold on the states that
    satisfy [good] and the elements that satisfy [allowed]. *)
Variables T B : Type.
Variable value : T -> double.
Variable score : B -> double.
Variable before : double -> double -> bool.
Variable step : T -> B -> T.
Variable good : T -> Prop.
Variable allowed : B -> Prop.

Hypothesis before_trans :
  forall x y z, before x y = true -> before y z = true -> before x z = true.
Hypothesis before_irrefl : forall x, before x x = false.
Hypothesis step_good : forall a b, good a -> allowed b -> good (step a b).
Hypothesis step_value :
  forall a b, good a -> allowed b ->
    (before (score b) (value a) = true /\ value (step a b) = score b)
    \/ (before (score b) (value a) = false /\ value (step a b) = value a).

Lemma fold_left_best_bound (l : list B) (a : T) (x : double) :
  good a -> (forall b, In b l -> allowed b) ->
  before x (value a) = false -> before x (value (fold_left step l a)) = false.
Proof.
  revert a. induction l as [|b l IH]; simpl; intros a Ha Hl Hbound; [exact Hbound|].
  apply IH; [apply step_good; auto|auto|].
  destruct (step_value Ha (Hl b (or_introl eq_refl))) as [[Hb Hv]|[_ Hv]];
    rewrite Hv; [|exact Hbound].
  destruct (before x (score b)) eqn:Hx; [|reflexivity].
  rewrite (before_trans Hx Hb) in Hbound. discriminate.
Qed.

Lemma fold_left_best (l : list B) (a : T) (b : B) :
  good a -> (forall b', In b' l -> allowed b') -> In b l ->
  before (score b) (value (fold_left step l a)) = false.
Proof.
  revert a. induction l as [|b' l IH]; simpl; intros a Ha Hl Hin; [contradiction|].
  destruct Hin as [->|Hin]; [|apply IH; auto].
  apply fold_left_best_bound; [apply step_good; auto|auto|].
  destruct (step_value Ha (Hl b (or_introl eq_refl))) as [[_ Hv]|[Hb Hv]];
    rewrite Hv; [apply before_irrefl|exact Hb].
Qed.

End RunningBest.

(** ** Reclassification *)

Lemma reclassify_step_other (distances : MatrixXd) (object medoid : Z)
    (s : pam_data) (o : Z) :
  0 <= o -> o <> object ->
  vec_get (classification (reclassify_step distances object s medoid)) o
  = vec_get (classification s) o.
Proof.
  intros Ho Hne. unfold reclassify_step.
  destruct (_ =? medoid); [reflexivity|].
  destruct (_ <? _)%float; simpl.
  - apply vec_get_set_other; [exact Ho|congruence].
  - destruct (_ <? _)%float; reflexivity.
Qed.

Lemma reclassify_object_other (distances : MatrixXd) (acc : double * pam_data)
    (object o : Z) :
  0 <= o -> o <> object ->
  vec_get (classification (snd (reclassify_object distances acc object))) o
  = vec_get (classification (snd acc)) o.
Proof.
  intros Ho Hne. destruct acc as [total s]. simpl.
  apply (fold_left_invariant
           (fun a => vec_get (classification a) o = vec_get (classification s) o)).
  - reflexivity.
  - intros a m _ Ha. rewrite reclassify_step_other; assumption.
Qed.

(** After the loop over the medoids for [object], no medoid is strictly
    closer to [object] than the medoid it is classified to. *)
Lemma reclassify_object_nearest (n : Z) (distances : MatrixXd) (s : pam_data)
    (acc : double * pam_data) (object m : Z) :
  same_sets_inv n s (snd acc) -> In object (nonselected s) -> In m (medoids s) ->
  (coeff distances object m
   <? coeff distances object
        (vec_get (classification (snd (reclassify_object distances acc object)))
           object))%float = false.
Proof.
  destruct acc as [total s']. simpl. intros Hs' Ho Hm.
  pose proof Hs' as (Hinv' & Hmed & _). rewrite Hmed.
  apply (fold_left_best
           (fun a => coeff distances object (vec_get (classification a) object))
           (fun m' => coeff distances object m')
           PrimFloat.ltb (reclassify_step distances object)
           (same_sets_inv n s) (fun m' => In m' (medoids s))
           ltb_trans ltb_irrefl); auto.
  - intros a m' Ha Hm'. apply reclassify_step_inv; assumption.
  - intros a m' (Ha & _ & Hnon) _. unfold reclassify_step.
    destruct (vec_get (classification a) object =? m') eqn:Heq.
    + apply Z.eqb_eq in Heq. right. rewrite Heq. split; [apply ltb_irrefl|reflexivity].
    + destruct (coeff distances object m'
                <? coeff distances object (vec_get (classification a) object))%float
        eqn:Hlt.
      * left. split; [reflexivity|]. simpl.
        rewrite vec_get_set_same; [reflexivity|].
        rewrite (inv_classification_size Ha).
        apply (inv_nonselected_range Ha). rewrite Hnon. exact Ho.
      * right. split; [reflexivity|].
        destruct (coeff distances object m'
                  <? coeff distances object
                       (vec_get (second_closest_medoid a) object))%float;
          reflexivity.
Qed.

(** The loop over the objects of [l]: the sets and the entries of the other
    objects stay, each object of [l] ends at a nearest medoid, and the
    total grows by the distance of each to its medoid. *)
Lemma reclassify_fold (n : Z) (distances : MatrixXd) (s : pam_data)
    (l : list Z) (acc : double * pam_data) :
  same_sets_inv n s (snd acc) ->
  (forall o, In o l -> In o (nonselected s)) -> NoDup l ->
  let r := fold_left (reclassify_object distances) l acc in
  same_sets_inv n s (snd r)
  /\ (forall o m, In o l -> In m (medoids s) ->
        (coeff distances o m
         <? coeff distances o (vec_get (classification (snd r)) o))%float = false)
  /\ (forall o, 0 <= o -> ~ In o l ->
        vec_get (classification (snd r)) o = vec_get (classification (snd acc)) o)
  /\ fst r
     = fold_left
         (fun total o =>
            (total + coeff distances o (vec_get (classification (snd r)) o))%float)
         l (fst acc).
Proof.
  revert acc. induction l as [|object l IH]; intros acc Hacc Hl Hnodup.
  - simpl. split; [exact Hacc|]. split; [intros o m []|].
    split; [intros; reflexivity|reflexivity].
  - inversion Hnodup as [|? ? Hnotin Hnodup']; subst.
    assert (Hobj : In object (nonselected s)) by (apply Hl; left; reflexivity).
    assert (Hacc1 : same_sets_inv n s (snd (reclassify_object distances acc object)))
      by (apply reclassify_object_inv; assumption).
    assert (Hobj_range : 0 <= object)
      by (destruct Hacc as (Hinv & _ & Hnon);
          apply (inv_nonselected_range Hinv); rewrite Hnon; exact Hobj).
    specialize (IH (reclassify_object distances acc object) Hacc1
                  (fun o Ho => Hl o (or_intror Ho)) Hnodup').
    cbn [fold_left]. cbv zeta in IH |- *.
    set (r := fold_left (reclassify_object distances) l
                (reclassify_object distances acc object)) in *.
    destruct IH as (Hr & Hnear & Hother & Htotal).
    split; [exact Hr|]. split; [|split].
    + intros o m [<-|Ho] Hm; [|apply Hnear; assumption].
      rewrite (Hother object Hobj_range Hnotin).
      apply (@reclassify_object_nearest n distances s acc object m); assumption.
    + intros o Ho Hnot. rewrite Hother by (auto; intros Hin; apply Hnot; right; exact Hin).
      apply reclassify_object_other; [exact Ho|].
      intros ->. apply Hnot. left. reflexivity.
    + rewrite Htotal. cbn [fold_left]. f_equal.
      rewrite (Hother object Hobj_range Hnotin).
      destruct acc as [total s0]. reflexivity.
Qed.

Lemma reclassify_objects_fold (n : Z) (distances : MatrixXd) (s : pam_data) :
  pam_inv n s ->
  let r := reclassify_objects distances s in
  same_sets_inv n s (snd r)
  /\ (forall o m, In o (nonselected s) -> In m (medoids s) ->
        (coeff distances o m
         <? coeff distances o (vec_get (classification (snd r)) o))%float = false)
  /\ (forall o, 0 <= o -> ~ In o (nonselected s) ->
        vec_get (classification (snd r)) o = vec_get (classification s) o)
  /\ fst r
     = fold_left
         (fun total o =>
            (total + coeff distances o (vec_get (classification (snd r)) o))%float)
         (nonselected s) 0%float.
Proof.
  intros Hs. unfold reclassify_objects.
  apply (@reclassify_fold n distances s (nonselected s) (0%float, s)).
  - split; [exact Hs|]. split; reflexivity.
  - auto.
  - apply ordered_set_NoDup, Hs.
Qed.

(** X5.  [reclassify_objects] leaves the two sets and the classification
    of the medoids as they are, and classifies every nonselected object to
    a medoid no other medoid is strictly closer than. *)
Theorem reclassify_objects_nearest (n : Z) (distances : MatrixXd) (s : pam_data) :
  pam_inv n s ->
  let s' := snd (reclassify_objects distances s) in
  medoids s' = medoids s
  /\ nonselected s' = nonselected s
  /\ (forall m, In m (medoids s) ->
        vec_get (classification s') m = vec_get (classification s) m)
  /\ nearest_classified distances s'.
Proof.
  intros Hs s'.
  destruct (reclassify_objects_fold distances Hs) as ((_ & Hmed & Hnon) & Hnear & Hother & _).
  fold s' in Hmed, Hnon, Hnear, Hother.
  split; [exact Hmed|]. split; [exact Hnon|]. split.
  - intros m Hm. apply Hother.
    + apply (inv_medoid_range Hs), Hm.
    + exact (inv_disjoint Hs m Hm).
  - intros o m Ho Hm. rewrite Hnon in Ho. rewrite Hmed in Hm. apply Hnear; assumption.
Qed.

Lemma reclassify_objects_nearest_witness :
  let s := add_medoid 2 (pam_data_new 4 1) in
  let s' := snd (reclassify_objects (euclidean_distance_matrix two_pairs) s) in
  pam_inv 4 s
  /\ (medoids s' = medoids s
      /\ nonselected s' = nonselected s
      /\ (forall m, In m (medoids s) ->
            vec_get (classification s') m = vec_get (classification s) m)
      /\ nearest_classified (euclidean_distance_matrix two_pairs) s').
Proof.
  intros s s'.
  assert (Hs : pam_inv 4 s)
    by (apply add_medoid_inv; [apply pam_data_new_inv|]; lia).
  split; [exact Hs|].
  exact (@reclassify_objects_nearest 4 (euclidean_distance_matrix two_pairs) s Hs).
Defined.

(** X6.  The total [reclassify_objects] returns is the sum, from 0.0 and
    in ascending order of the nonselected objects, of the distance of each
    nonselected object to the medoid the returned state classifies it to;
    the medoids do not count in it. *)
Theorem reclassify_objects_total (n : Z) (distances : MatrixXd) (s : pam_data) :
  pam_inv n s ->
  fst (reclassify_objects distances s)
  = fold_left
      (fun total o =>
         (total
          + coeff distances o
              (vec_get (classification (snd (reclassify_objects distances s))) o))%float)
      (nonselected s) 0%float.
Proof.
  intros Hs. apply (reclassify_objects_fold distances Hs).
Qed.

Lemma reclassify_objects_total_witness :
  let distances := euclidean_distance_matrix two_pairs in
  let s := add_medoid 2 (pam_data_new 4 1) in
  pam_inv 4 s
  /\ fst (reclassify_objects distances s) = 2%float
  /\ fst (reclassify_objects distances s)
     = fold_left
         (fun total o =>
            (total
             + coeff distances o
                 (vec_get (classification (snd (reclassify_objects distances s))) o))%float)
         (nonselected s) 0%float.
Proof.
  intros distances s.
  assert (Hs : pam_inv 4 s)
    by (apply add_medoid_inv; [apply pam_data_new_inv|]; lia).
  split; [exact Hs|]. split; [vm_compute; reflexivity|].
  exact (@reclassify_objects_total 4 distances s Hs).
Defined.

(** When every nonselected object is at a nearest medoid already, the pass
    changes no classification. *)
Lemma reclassify_objects_fixed (n : Z) (distances : MatrixXd) (s : pam_data) :
  pam_inv n s -> nearest_classified distances s ->
  classification (snd (reclassify_objects distances s)) = classification s.
Proof.
  intros Hs Hnear. unfold reclassify_objects.
  pose (keeps := fun a : pam_data =>
                   same_sets_inv n s a /\ classification a = classification s).
  assert (Hfold : keeps (snd (fold_left (reclassify_object distances)
                                 (nonselected s) (0%float, s)))).
  { apply (fold_left_invariant (fun acc : double * pam_data => keeps (snd acc))).
    - split; [split; [exact Hs|split; reflexivity]|reflexivity].
    - intros [total a] o Ho [Ha Hclass]. simpl in Ha, Hclass. simpl.
      pose proof Ha as (_ & Hmed & _). rewrite Hmed.
      apply (fold_left_invariant keeps); [split; assumption|].
      intros a' m Hm [Ha' Hclass']. split; [apply reclassify_step_inv; assumption|].
      unfold reclassify_step. rewrite Hclass'.
      destruct (vec_get (classification s) o =? m); [exact Hclass'|].
      rewrite (Hnear o m Ho Hm).
      destruct (_ <? _)%float; exact Hclass'. }
  apply Hfold.
Qed.

(** X7.  A second pass of [reclassify_objects] right after a first one
    changes no classification and returns the same total. *)
Theorem reclassify_objects_twice (n : Z) (distances : MatrixXd) (s : pam_data) :
  pam_inv n s ->
  let first := reclassify_objects distances s in
  let second := reclassify_objects distances (snd first) in
  classification (snd second) = classification (snd first)
  /\ fst second = fst first.
Proof.
  intros Hs first second.
  destruct (reclassify_objects_fold distances Hs)
    as ((_ & Hmed & Hnon) & Hnear0 & _ & Htotal).
  fold first in Hmed, Hnon, Hnear0, Htotal.
  assert (Hnear : nearest_classified distances (snd first)).
  { intros o m Ho Hm. rewrite Hnon in Ho. rewrite Hmed in Hm.
    apply Hnear0; assumption. }
  assert (Hfirst : pam_inv n (snd first)) by (apply reclassify_objects_inv, Hs).
  assert (Hclass : classification (snd second) = classification (snd first))
    by (apply (reclassify_objects_fixed Hfirst Hnear)).
  split; [exact Hclass|].
  destruct (reclassify_objects_fold distances Hfirst) as (_ & _ & _ & Htotal').
  fold second in Htotal'. rewrite Htotal', Hclass, Hnon. symmetry. exact Htotal.
Qed.

Lemma reclassify_objects_twice_witness :
  let distances := euclidean_distance_matrix two_pairs in
  let s := add_medoid 2 (pam_data_new 4 1) in
  let first := reclassify_objects distances s in
  let second := reclassify_objects distances (snd first) in
  pam_inv 4 s
  /\ classification (snd second) = classification (snd first)
  /\ fst second = fst first.
Proof.
  intros distances s first second.
  assert (Hs : pam_inv 4 s)
    by (apply add_medoid_inv; [apply pam_data_new_inv|]; lia).
  split; [exact Hs|].
  exact (@reclassify_objects_twice 4 distances s Hs).
Defined.

(** ** The initial medoid *)

Lemma SFltb_leb_trans (x y z : spec_float) :
  SFltb x y = true -> SFleb y z = true -> SFltb x z = true.
Proof. unfold SFleb, SFltb, SFcompare. order_cases x y z. Qed.

Lemma ltb_leb_trans (x y z : double) :
  (x <? y)%float = true -> (y <=? z)%float = true -> (x <? z)%float = true.
Proof. rewrite leb_spec, !ltb_spec. apply SFltb_leb_trans. Qed.

Lemma ltb_true_number_r (x y : double) :
  (x <? y)%float = true -> is_nan y = false.
Proof.
  unfold is_nan. rewrite ltb_spec, eqb_spec. unfold SFltb, SFeqb.
  destruct (Prim2SF y) eqn:Hy;
    try (destruct (Prim2SF x) as [[|]|[|]| |[|] ? ?]; simpl; discriminate);
    rewrite SFcompare_refl by discriminate; reflexivity.
Qed.

Lemma skipn_cons_nth (v : list double) (i : nat) (y : double) (t : list double) :
  skipn i v = y :: t ->
  nth i v 0%float = y /\ skipn (S i) v = t /\ (i < length v)%nat.
Proof.
  revert i. induction v as [|x v IH]; intros i Hskip.
  - destruct i; discriminate.
  - destruct i as [|i].
    + simpl in Hskip. injection Hskip as -> ->. simpl. repeat split. lia.
    + simpl in Hskip. destruct (IH i Hskip) as (Hnth & Hrest & Hlen).
      simpl. repeat split; [exact Hnth|exact Hrest|lia].
Qed.

Lemma minCoeff_visit_seen (v : list double) (t : list double) (i : nat)
    (acc : double * Z * Z) :
  skipn i v = t -> minCoeff_seen v i acc ->
  minCoeff_seen v (length v) (fold_left minCoeff_visit t acc).
Proof.
  revert i acc. induction t as [|y t IH]; intros i acc Hskip Hseen.
  - simpl. destruct Hseen as (Hi & Hlen & Hrest).
    assert (Hlen' : (length v <= i)%nat).
    { destruct (Nat.le_gt_cases (length v) i) as [|Hlt]; [assumption|].
      pose proof (length_skipn i v) as Hl. rewrite Hskip in Hl. simpl in Hl. lia. }
    replace (length v) with i by lia. split; [exact Hi|]. split; [lia|exact Hrest].
  - destruct (skipn_cons_nth _ _ Hskip) as (Hnth & Hskip' & Hlt).
    cbn [fold_left]. apply (IH (S i)); [exact Hskip'|].
    destruct acc as [[best index] counter].
    destruct Hseen as (Hi & Hlen & Hindex & Hbest & Hmin & Hfirst).
    simpl in Hi, Hindex, Hbest, Hmin, Hfirst. subst counter.
    unfold minCoeff_visit, minCoeff_seen.
    destruct (y <? best)%float eqn:Hy; cbn [fst snd].
    + split; [lia|]. split; [lia|]. split; [lia|].
      rewrite Nat2Z.id. split; [exact Hnth|]. split.
      * intros j Hj. destruct (Nat.eq_dec j i) as [->|Hne].
        -- rewrite Hnth. apply ltb_irrefl.
        -- destruct (nth j v 0 <? y)%float eqn:Hjy; [|reflexivity].
           assert (Hj' : (j < i)%nat) by lia.
           specialize (Hmin j Hj'). rewrite (ltb_trans Hjy Hy) in Hmin.
           discriminate.
      * intros Hnum j Hj.
        eapply ltb_leb_trans; [exact Hy|]. apply ltb_false_leb.
        -- apply Hnum. apply nth_In. lia.
        -- eapply ltb_true_number_r, Hy.
        -- apply Hmin. exact Hj.
    + split; [lia|]. split; [lia|]. split; [lia|].
      split; [exact Hbest|]. split; [|exact Hfirst].
      intros j Hj. destruct (Nat.eq_dec j i) as [->|Hne].
      * rewrite Hnth. exact Hy.
      * apply Hmin. lia.
Qed.

Lemma minCoeff_seen_all (v : list double) :
  v <> [] -> exists best counter,
    minCoeff_seen v (length v) (best, minCoeff v, counter).
Proof.
  destruct v as [|x t]; [congruence|]. intros _.
  pose proof (@minCoeff_visit_seen (x :: t) t 1 (x, 0, 1) eq_refl) as Hall.
  unfold minCoeff.
  destruct (fold_left minCoeff_visit t (x, 0, 1)) as [[best index] counter].
  exists best, counter. apply Hall.
  unfold minCoeff_seen. cbn [fst snd length].
  split; [reflexivity|]. split; [lia|]. split; [lia|]. split; [reflexivity|].
  split.
  - intros j Hj. replace j with 0%nat by lia. apply ltb_irrefl.
  - intros _ j Hj. simpl in Hj. lia.
Qed.

(** X8.  Over a matrix with at least one row, [find_initial_medoid]
    answers an object of [0 .. n-1] whose sum of dissimilarities no other
    object's sum is strictly below; when the sums are numbers it is the
    first such object: every object before it has a strictly larger sum. *)
Theorem find_initial_medoid_minimal (distances : MatrixXd) :
  1 <= rows distances ->
  let initial_medoid := find_initial_medoid distances in
  let sum := fun i : Z => row_sum (nth (Z.to_nat i) distances []) in
  0 <= initial_medoid < rows distances
  /\ (forall i, 0 <= i < rows distances ->
        (sum i <? sum initial_medoid)%float = false)
  /\ ((forall i, 0 <= i < rows distances -> is_nan (sum i) = false) ->
      forall i, 0 <= i < initial_medoid ->
        (sum initial_medoid <? sum i)%float = true).
Proof.
  intros Hn initial_medoid sum.
  assert (Hne : map row_sum distances <> [])
    by (destruct distances; simpl in *; [unfold rows in Hn; simpl in Hn; lia|congruence]).
  destruct (minCoeff_seen_all Hne) as (best & counter & Hseen).
  destruct Hseen as (_ & _ & Hindex & Hbest & Hmin & Hfirst).
  cbn [fst snd] in Hindex, Hbest, Hmin, Hfirst.
  fold (find_initial_medoid distances) in Hindex, Hbest, Hmin, Hfirst.
  fold initial_medoid in Hindex, Hbest, Hmin, Hfirst.
  rewrite length_map in Hindex, Hmin.
  assert (Hsum : forall i, 0 <= i < rows distances ->
                   nth (Z.to_nat i) (map row_sum distances) 0%float = sum i).
  { intros i Hi. unfold sum.
    rewrite (nth_indep _ 0%float (row_sum [])) by (rewrite length_map; unfold rows in Hi; lia).
    apply map_nth. }
  unfold rows in *.
  rewrite (Hsum initial_medoid Hindex) in Hbest. subst best.
  split; [exact Hindex|]. split.
  - intros i Hi. rewrite <- (Hsum i Hi). apply Hmin. lia.
  - intros Hnum i Hi. rewrite <- (Hsum i) by lia.
    apply Hfirst; [|lia].
    intros y Hy. apply in_map_iff in Hy. destruct Hy as (row & <- & Hrow).
    destruct (In_nth _ _ [] Hrow) as (j & Hj & Hnth).
    specialize (Hnum (Z.of_nat j) ltac:(lia)). unfold sum in Hnum.
    rewrite Nat2Z.id, Hnth in Hnum. exact Hnum.
Qed.

Lemma find_initial_medoid_minimal_witness :
  let distances := line6_distances in
  let initial_medoid := find_initial_medoid distances in
  let sum := fun i : Z => row_sum (nth (Z.to_nat i) distances []) in
  1 <= rows distances
  /\ initial_medoid = 2
  /\ (0 <= initial_medoid < rows distances
      /\ (forall i, 0 <= i < rows distances ->
            (sum i <? sum initial_medoid)%float = false)
      /\ ((forall i, 0 <= i < rows distances -> is_nan (sum i) = false) ->
          forall i, 0 <= i < initial_medoid ->
            (sum initial_medoid <? sum i)%float = true)).
Proof.
  intros distances initial_medoid sum.
  assert (Hn : 1 <= rows distances) by (vm_compute; discriminate).
  split; [exact Hn|]. split; [vm_compute; reflexivity|].
  exact (@find_initial_medoid_minimal distances Hn).
Defined.

(** ** The next medoid *)

Lemma ordered_set_before (pre : list Z) (x : Z) (l : list Z) :
  ordered_set (pre ++ x :: l) -> forall i, In i pre -> i < x.
Proof.
  unfold ordered_set. induction pre as [|y pre IH]; simpl; intros Hs i Hin;
    [contradiction|].
  inversion Hs as [|? ? Hrest Hall]; subst.
  destruct Hin as [->|Hin]; [|apply IH; assumption].
  rewrite Forall_forall in Hall. apply Hall. apply in_or_app. right. left. reflexivity.
Qed.

Lemma next_medoid_step_seen (distances : MatrixXd) (s : pam_data)
    (pre : list Z) (x : Z) (acc : double * Z) :
  (forall i, In i pre -> i < x) ->
  next_medoid_seen distances s pre acc ->
  next_medoid_seen distances s (pre ++ [x]) (next_medoid_step distances s acc x).
Proof.
  intros Hbefore Hseen. destruct acc as [maximum_gain next_medoid].
  unfold next_medoid_step.
  assert (Hin : forall i, In i (pre ++ [x]) <-> In i pre \/ i = x).
  { intros i. rewrite in_app_iff. simpl. intuition. }
  destruct Hseen as [[[= -> ->] Hlow]|(Hr & Hmax & Habove & Hbest & Hfirst)].
  - destruct (DBL_MIN <? gain distances s x)%float eqn:Hx.
    + right. cbn [fst snd]. split; [apply Hin; right; reflexivity|].
      split; [reflexivity|]. split; [exact Hx|]. split.
      * intros i Hi. apply Hin in Hi. destruct Hi as [Hi| ->]; [|apply ltb_irrefl].
        destruct (gain distances s x <? gain distances s i)%float eqn:Hxi;
          [|reflexivity].
        specialize (Hlow i Hi). rewrite (ltb_trans Hx Hxi) in Hlow. discriminate.
      * intros Hnum i Hi Hlt. apply Hin in Hi. destruct Hi as [Hi| ->]; [|lia].
        eapply leb_ltb_trans; [|exact Hx].
        apply ltb_false_leb; [reflexivity| |apply Hlow, Hi].
        apply Hnum, Hin. left. exact Hi.
    + left. split; [reflexivity|].
      intros i Hi. apply Hin in Hi. destruct Hi as [Hi| ->]; [apply Hlow, Hi|exact Hx].
  - cbn [fst snd] in Hr, Hmax, Habove, Hbest, Hfirst. subst maximum_gain.
    destruct (gain distances s next_medoid <? gain distances s x)%float eqn:Hx.
    + right. cbn [fst snd]. split; [apply Hin; right; reflexivity|].
      split; [reflexivity|]. split; [exact (ltb_trans Habove Hx)|]. split.
      * intros i Hi. apply Hin in Hi. destruct Hi as [Hi| ->]; [|apply ltb_irrefl].
        destruct (gain distances s x <? gain distances s i)%float eqn:Hxi;
          [|reflexivity].
        specialize (Hbest i Hi). rewrite (ltb_trans Hx Hxi) in Hbest. discriminate.
      * intros Hnum i Hi Hlt. apply Hin in Hi. destruct Hi as [Hi| ->]; [|lia].
        eapply leb_ltb_trans; [|exact Hx].
        apply ltb_false_leb; [| |apply Hbest, Hi].
        -- eapply ltb_true_number, Hx.
        -- apply Hnum, Hin. left. exact Hi.
    + right. cbn [fst snd]. split; [apply Hin; left; exact Hr|].
      split; [reflexivity|]. split; [exact Habove|]. split.
      * intros i Hi. apply Hin in Hi. destruct Hi as [Hi| ->]; [apply Hbest, Hi|exact Hx].
      * intros Hnum i Hi Hlt. apply Hin in Hi. destruct Hi as [Hi| ->].
        -- apply Hfirst; [|exact Hi|exact Hlt].
           intros j Hj. apply Hnum, Hin. left. exact Hj.
        -- specialize (Hbefore _ Hr). lia.
Qed.

Lemma next_medoid_fold_seen (distances : MatrixXd) (s : pam_data)
    (l pre : list Z) (acc : double * Z) :
  ordered_set (pre ++ l) ->
  next_medoid_seen distances s pre acc ->
  next_medoid_seen distances s (pre ++ l)
    (fold_left (next_medoid_step distances s) l acc).
Proof.
  revert pre acc. induction l as [|x l IH]; intros pre acc Hs Hseen.
  - rewrite app_nil_r. exact Hseen.
  - cbn [fold_left].
    replace (pre ++ x :: l) with ((pre ++ [x]) ++ l) in *
      by (rewrite <- app_assoc; reflexivity).
    apply IH; [exact Hs|].
    apply next_medoid_step_seen; [|exact Hseen].
    apply (@ordered_set_before pre x l).
    rewrite <- app_assoc in Hs. exact Hs.
Qed.

(** X9.  [find_next_medoid] answers in one of two ways.  Either no
    nonselected candidate has a gain above [DBL_MIN], and the answer is 0;
    or the answer is a nonselected candidate whose gain is above [DBL_MIN]
    and is exceeded by no candidate's gain, and, when the gains are
    numbers, every candidate of a smaller index has a strictly smaller
    gain (the first candidate of maximum gain). *)
Theorem find_next_medoid_answer (n : Z) (distances : MatrixXd) (s : pam_data) :
  pam_inv n s ->
  let next_medoid := find_next_medoid distances s in
  ((forall i, In i (nonselected s) ->
      (DBL_MIN <? gain distances s i)%float = false)
   /\ next_medoid = 0)
  \/ (In next_medoid (nonselected s)
      /\ (DBL_MIN <? gain distances s next_medoid)%float = true
      /\ (forall i, In i (nonselected s) ->
            (gain distances s next_medoid <? gain distances s i)%float = false)
      /\ ((forall i, In i (nonselected s) -> is_nan (gain distances s i) = false) ->
          forall i, In i (nonselected s) -> i < next_medoid ->
            (gain distances s i <? gain distances s next_medoid)%float = true)).
Proof.
  intros Hs next_medoid.
  assert (Hseen : next_medoid_seen distances s (nonselected s)
                    (fold_left (next_medoid_step distances s) (nonselected s)
                       (DBL_MIN, 0))).
  { apply (@next_medoid_fold_seen distances s (nonselected s) [] (DBL_MIN, 0)).
    - apply Hs.
    - left. split; [reflexivity|]. intros i []. }
  unfold next_medoid, find_next_medoid.
  destruct Hseen as [[-> Hlow]|(Hr & _ & Habove & Hbest & Hfirst)].
  - left. split; [exact Hlow|reflexivity].
  - right. repeat split; assumption.
Qed.

Lemma find_next_medoid_answer_witness :
  let distances := line6_distances in
  let s := pam_data_new 6 2 in
  let next_medoid := find_next_medoid distances s in
  pam_inv 6 s
  /\ next_medoid = 4
  /\ (((forall i, In i (nonselected s) ->
          (DBL_MIN <? gain distances s i)%float = false)
       /\ next_medoid = 0)
      \/ (In next_medoid (nonselected s)
          /\ (DBL_MIN <? gain distances s next_medoid)%float = true
          /\ (forall i, In i (nonselected s) ->
                (gain distances s next_medoid <? gain distances s i)%float = false)
          /\ ((forall i, In i (nonselected s) ->
                 is_nan (gain distances s i) = false) ->
              forall i, In i (nonselected s) -> i < next_medoid ->
                (gain distances s i <? gain distances s next_medoid)%float = true))).
Proof.
  intros distances s next_medoid.
  assert (Hs : pam_inv 6 s) by (apply pam_data_new_inv; lia).
  split; [exact Hs|]. split; [vm_compute; reflexivity|].
  exact (@find_next_medoid_answer 6 distances s Hs).
Defined.

(** ** The number of medoids *)

Lemma add_medoid_count (n : Z) (s : pam_data) (m : Z) :
  pam_inv n s ->
  (length (medoids s) <= length (medoids (add_medoid m s)) <= S (length (medoids s)))%nat.
Proof.
  intros Hs. simpl.
  destruct (in_dec Z.eq_dec m (medoids s)) as [Hin|Hnot].
  - rewrite set_insert_member; [lia|apply Hs|exact Hin].
  - rewrite set_insert_length by exact Hnot. lia.
Qed.

Lemma build_step_count (n : Z) (distances : MatrixXd) (s : pam_data) :
  pam_inv n s -> 1 <= n ->
  (length (medoids s) <= length (medoids (build_step distances s))
   <= S (length (medoids s)))%nat
  /\ forall m, In m (medoids s) -> In m (medoids (build_step distances s)).
Proof.
  intros Hs Hn. unfold build_step.
  assert (Hadd : pam_inv n (add_medoid (find_next_medoid distances s) s))
    by (apply add_medoid_inv; [exact Hs|apply find_next_medoid_range; assumption]).
  destruct (reclassify_objects_same_sets distances Hadd) as (_ & Hmed & _).
  rewrite Hmed. split.
  - apply (add_medoid_count _ Hs).
  - intros m Hm. simpl. apply set_insert_In. right. exact Hm.
Qed.

Lemma build_loop_count (n : Z) (count : nat) (distances : MatrixXd) (s : pam_data) :
  pam_inv n s -> 1 <= n ->
  (length (medoids s) <= length (medoids (build_loop count distances s))
   <= length (medoids s) + count)%nat
  /\ forall m, In m (medoids s) -> In m (medoids (build_loop count distances s)).
Proof.
  revert s. induction count as [|count IH]; simpl; intros s Hs Hn.
  - split; [lia|auto].
  - destruct (build_step_count distances Hs Hn) as (Hstep & Hkeep).
    destruct (IH (build_step distances s) (build_step_inv distances Hs Hn) Hn)
      as (Hloop & Hkeep').
    split; [lia|auto].
Qed.

Lemma sets_count (n : Z) (s : pam_data) :
  pam_inv n s -> 0 <= n ->
  Z.of_nat (length (medoids s)) + Z.of_nat (length (nonselected s)) = n.
Proof.
  intros Hs Hn.
  assert (Hnodup : NoDup (medoids s ++ nonselected s)).
  { apply NoDup_app; try (apply ordered_set_NoDup; apply Hs).
    intros o Hm. exact (inv_disjoint Hs o Hm). }
  assert (Hall : NoDup (all_objects n))
    by apply ordered_set_NoDup, all_objects_ordered.
  assert (Hlen : length (all_objects n) = Z.to_nat n)
    by (unfold all_objects; rewrite length_map, length_seq; reflexivity).
  assert (Hle1 : (length (medoids s ++ nonselected s) <= length (all_objects n))%nat).
  { apply NoDup_incl_length; [exact Hnodup|].
    intros o Ho. apply all_objects_In, (inv_cover Hs), in_app_iff, Ho. }
  assert (Hle2 : (length (all_objects n) <= length (medoids s ++ nonselected s))%nat).
  { apply NoDup_incl_length; [exact Hall|].
    intros o Ho. apply in_app_iff, (inv_cover Hs), all_objects_In, Ho. }
  rewrite length_app in Hle1, Hle2. lia.
Qed.

(** X10.  For [k >= 1] over a matrix with at least one row, [build]
    answers a state with at least one and at most [k] medoids, the initial
    medoid among them, and every object either a medoid or nonselected. *)
Theorem build_medoid_count (k : Z) (distances : MatrixXd) :
  1 <= rows distances ->
  1 <= k ->
  let s := build k distances in
  1 <= Z.of_nat (length (medoids s)) <= k
  /\ In (find_initial_medoid distances) (medoids s)
  /\ Z.of_nat (length (medoids s)) + Z.of_nat (length (nonselected s))
     = rows distances.
Proof.
  intros Hn Hk s.
  assert (Hnew : pam_inv (rows distances)
                   (pam_data_new (rows distances) (find_initial_medoid distances)))
    by (apply pam_data_new_inv, find_initial_medoid_range, Hn).
  destruct (build_loop_count (Z.to_nat (k - 1)) distances Hnew Hn) as (Hcount & Hkeep).
  fold (build k distances) in Hcount, Hkeep. fold s in Hcount, Hkeep.
  simpl in Hcount. split; [lia|]. split.
  - apply Hkeep. simpl. left. reflexivity.
  - apply sets_count; [apply build_inv, Hn|lia].
Qed.

Lemma build_medoid_count_witness :
  let s := build 3 line6_distances in
  1 <= rows line6_distances /\ 1 <= 3
  /\ (1 <= Z.of_nat (length (medoids s)) <= 3
      /\ In (find_initial_medoid line6_distances) (medoids s)
      /\ Z.of_nat (length (medoids s)) + Z.of_nat (length (nonselected s))
         = rows line6_distances).
Proof.
  intros s.
  assert (Hn : 1 <= rows line6_distances) by (vm_compute; discriminate).
  assert (Hk : 1 <= 3) by lia.
  split; [exact Hn|]. split; [exact Hk|].
  exact (@build_medoid_count 3 line6_distances Hn Hk).
Defined.

Lemma swap_medoid_lengths (n : Z) (s : pam_data) (old_medoid new_medoid : Z) :
  pam_inv n s -> In old_medoid (medoids s) -> In new_medoid (nonselected s) ->
  length (medoids (swap_medoid old_medoid new_medoid s)) = length (medoids s)
  /\ length (nonselected (swap_medoid old_medoid new_medoid s))
     = length (nonselected s).
Proof.
  intros Hs Hold Hnew. simpl. split.
  - rewrite set_insert_length.
    + apply set_erase_length; [apply Hs|exact Hold].
    + rewrite set_erase_In. intros [_ Hin]. exact (inv_disjoint Hs _ Hin Hnew).
  - apply eq_add_S. rewrite set_erase_length.
    + apply set_insert_length. exact (inv_disjoint Hs _ Hold).
    + apply set_insert_ordered, Hs.
    + apply set_insert_In. right. exact Hnew.
Qed.

Lemma refine_step_lengths (n : Z) (distances : MatrixXd) (s s' : pam_data) :
  pam_inv n s -> refine_step distances s = Some s' ->
  length (medoids s') = length (medoids s)
  /\ length (nonselected s') = length (nonselected s).
Proof.
  intros Hs. unfold refine_step.
  pose proof (find_best_swap_candidate distances s) as Hcand.
  destruct (find_best_swap distances s) as [[minimum_contribution old_medoid] new_medoid].
  destruct (_ && _) eqn:Hcond; [|discriminate].
  intros [= <-].
  apply andb_prop in Hcond. destruct Hcond as [Hcond Hnew].
  apply andb_prop in Hcond. destruct Hcond as [_ Hold].
  apply Z.geb_le in Hold, Hnew.
  destruct Hcand as [[Ho Hh]|[Ho Hh]]; simpl in Ho, Hh; [lia|].
  destruct (reclassify_objects_same_sets distances
              (@swap_medoid_inv n s old_medoid new_medoid Hs Ho Hh))
    as (_ & Hmed & Hnon).
  rewrite Hmed, Hnon. apply (@swap_medoid_lengths n s old_medoid new_medoid Hs Ho Hh).
Qed.

(** X11.  [refine] changes neither the number of medoids nor the number
    of nonselected objects: the state it ends in has as many of each as
    the state it started from. *)
Theorem refine_keeps_medoid_count (n : Z) (fuel : nat) (distances : MatrixXd)
    (s s' : pam_data) :
  pam_inv n s ->
  refine fuel distances s = Some s' ->
  length (medoids s') = length (medoids s)
  /\ length (nonselected s') = length (nonselected s).
Proof.
  revert s. induction fuel as [|fuel IH]; simpl; intros s Hs; [discriminate|].
  destruct (refine_step distances s) as [s1|] eqn:Hstep.
  - intros Hrefine.
    destruct (@refine_step_lengths n distances s s1 Hs Hstep) as (Hmed & Hnon).
    destruct (IH s1 (@refine_step_inv n distances s s1 Hs Hstep) Hrefine) as (Hmed' & Hnon').
    split; congruence.
  - intros [= <-]. split; reflexivity.
Qed.

Lemma refine_keeps_medoid_count_witness :
  let distances := euclidean_distance_matrix two_pairs in
  let s := add_medoid 3 (pam_data_new 4 0) in
  let s' := {| medoids := [1; 3]; nonselected := [0; 2];
               classification := [1; 1; 3; 3];
               second_closest_medoid := [1; 1; 1; 1] |} in
  pam_inv 4 s
  /\ refine 3 distances s = Some s'
  /\ length (medoids s') = length (medoids s)
  /\ length (nonselected s') = length (nonselected s).
Proof.
  intros distances s s'.
  assert (Hs : pam_inv 4 s)
    by (apply add_medoid_inv; [apply pam_data_new_inv|]; lia).
  assert (Hrefine : refine 3 distances s = Some s') by (vm_compute; reflexivity).
  split; [exact Hs|]. split; [exact Hrefine|].
  exact (@refine_keeps_medoid_count 4 3 distances s s' Hs Hrefine).
Defined.

(** ** The returned result *)

(** X12.  A returned result has one classification entry per observation,
    and its medoids are objects of [0 .. n-1], in ascending order without
    repetition, at least one and at most [k] of them. *)
Theorem returned_result_shape
    (calculate_distance_matrix : MatrixXd -> MatrixXd) (fuel : nat) (k : Z)
    (matrix : MatrixXd) (final_clustering : pam_result.t) :
  rows (calculate_distance_matrix matrix) = rows matrix ->
  partition_around_medoids calculate_distance_matrix fuel k matrix
  = Returned final_clustering ->
  Z.of_nat (length (pam_result.classification final_clustering)) = rows matrix
  /\ ordered_set (pam_result.medoids final_clustering)
  /\ (forall m, In m (pam_result.medoids final_clustering) -> 0 <= m < rows matrix)
  /\ 1 <= Z.of_nat (length (pam_result.medoids final_clustering)) <= k.
Proof.
  intros Hrows Hret. apply partition_returned in Hret.
  destruct Hret as (Hk & s & Hrefine & Hmed & Hclass).
  set (distances := calculate_distance_matrix matrix) in *.
  assert (Hn : 1 <= rows distances) by lia.
  assert (Hbuild : pam_inv (rows distances) (build k distances))
    by (apply build_inv, Hn).
  assert (Hs : pam_inv (rows distances) s)
    by (eapply refine_inv; eassumption).
  assert (Hcount : length (medoids s) = length (medoids (build k distances))).
  { revert Hbuild Hrefine. generalize (build k distances) as s0. clear Hmed Hclass Hs.
    induction fuel as [|fuel IH]; simpl; intros s0 Hs0; [discriminate|].
    destruct (refine_step distances s0) as [s1|] eqn:Hstep.
    - intros Hrefine.
      rewrite (IH s1 (@refine_step_inv _ distances s0 s1 Hs0 Hstep) Hrefine).
      apply (@refine_step_lengths _ distances s0 s1 Hs0 Hstep).
    - intros [= <-]. reflexivity. }
  assert (Hbuild_count :
            (length (medoids (pam_data_new (rows distances) (find_initial_medoid distances)))
             <= length (medoids (build k distances))
             <= length (medoids (pam_data_new (rows distances)
                                   (find_initial_medoid distances)))
                + Z.to_nat (k - 1))%nat).
  { apply (@build_loop_count (rows distances)); [|exact Hn].
    apply pam_data_new_inv, find_initial_medoid_range, Hn. }
  simpl in Hbuild_count.
  rewrite Hmed, Hclass, <- Hrows. fold distances.
  split; [apply Hs|]. split; [apply Hs|]. split; [apply (inv_medoid_range Hs)|].
  rewrite Hcount. lia.
Qed.

Lemma returned_result_shape_witness :
  let final_clustering := {| pam_result.medoids := [1; 2];
                             pam_result.classification := [1; 1; 2; 2] |} in
  rows (euclidean_distance_matrix two_pairs) = rows two_pairs
  /\ partition_around_medoids euclidean_distance_matrix 5 2 two_pairs
     = Returned final_clustering
  /\ (Z.of_nat (length (pam_result.classification final_clustering)) = rows two_pairs
      /\ ordered_set (pam_result.medoids final_clustering)
      /\ (forall m, In m (pam_result.medoids final_clustering) ->
            0 <= m < rows two_pairs)
      /\ 1 <= Z.of_nat (length (pam_result.medoids final_clustering)) <= 2).
Proof.
  intros final_clustering.
  assert (Hrows : rows (euclidean_distance_matrix two_pairs) = rows two_pairs)
    by reflexivity.
  assert (Hret : partition_around_medoids euclidean_distance_matrix 5 2 two_pairs
                 = Returned final_clustering) by (vm_compute; reflexivity).
  split; [exact Hrows|]. split; [exact Hret|].
  exact (@returned_result_shape euclidean_distance_matrix 5 2 two_pairs
           final_clustering Hrows Hret).
Defined.

(** X13.  [partition_around_medoids] raises its first error exactly when
    [k < 2], its second exactly when [k >= 2] and the observations have
    fewer than [k] rows, and no other error; which one is decided on [k]
    and the number of rows alone, whatever the distance provider and the
    bound on the loop. *)
Theorem partition_rejections
    (calculate_distance_matrix : MatrixXd -> MatrixXd) (fuel : nat) (k : Z)
    (matrix : MatrixXd) :
  (partition_around_medoids calculate_distance_matrix fuel k matrix
   = Threw "Error: less than two partitions were requested."
   <-> k < 2)
  /\ (partition_around_medoids calculate_distance_matrix fuel k matrix
      = Threw "Error: not enough rows to create k partitions."
      <-> 2 <= k /\ rows matrix < k)
  /\ (forall what,
        partition_around_medoids calculate_distance_matrix fuel k matrix
        = Threw what ->
        what = "Error: less than two partitions were requested."%string
        \/ what = "Error: not enough rows to create k partitions."%string).
Proof.
  unfold partition_around_medoids.
  destruct (k <? 2) eqn:Hk.
  - apply Z.ltb_lt in Hk. split; [|split].
    + split; [intros _; exact Hk|reflexivity].
    + split; [discriminate|intros [Hk' _]; lia].
    + intros what [= <-]. left. reflexivity.
  - apply Z.ltb_ge in Hk. destruct (rows matrix <? k) eqn:Hrows.
    + apply Z.ltb_lt in Hrows. split; [|split].
      * split; [discriminate|lia].
      * split; [intros _; split; assumption|reflexivity].
      * intros what [= <-]. right. reflexivity.
    + apply Z.ltb_ge in Hrows.
      destruct (refine _ _ _); (split; [|split]);
        try (split; [discriminate|lia]); intros what; discriminate.
Qed.

Lemma SFeqb_leb_not_ltb (x y z : spec_float) :
  SFeqb x z = true -> SFleb z y = true -> SFltb y x = false.
Proof. unfold SFeqb, SFleb, SFltb, SFcompare. order_cases x y z. Qed.

(** Nothing non-negative is strictly below a zero. *)
Lemma zero_not_above (x y : double) :
  (x =? 0)%float = true -> (0 <=? y)%float = true -> (y <? x)%float = false.
Proof. rewrite eqb_spec, leb_spec, ltb_spec. apply SFeqb_leb_not_ltb. Qed.

Lemma valid_distance_matrix_entries (distances : MatrixXd) (i j : Z) :
  valid_distance_matrix distances = true ->
  0 <= i < rows distances -> 0 <= j < rows distances ->
  (coeff distances i i =? 0)%float = true
  /\ (0 <=? coeff distances i j)%float = true.
Proof.
  unfold valid_distance_matrix. intros Hvalid Hi Hj.
  apply andb_prop in Hvalid. destruct Hvalid as [_ Hentries].
  rewrite forallb_forall in Hentries.
  specialize (Hentries i (proj2 (all_objects_In _ _) Hi)).
  apply andb_prop in Hentries. destruct Hentries as [Hdiag Hrow].
  rewrite forallb_forall in Hrow.
  specialize (Hrow j (proj2 (all_objects_In _ _) Hj)).
  apply andb_prop in Hrow. destruct Hrow as [Hnonneg _].
  split; assumption.
Qed.

Lemma build_step_nearest (n : Z) (distances : MatrixXd) (s : pam_data) :
  pam_inv n s -> 1 <= n -> nearest_classified distances (build_step distances s).
Proof.
  intros Hs Hn. unfold build_step.
  assert (Hadd : pam_inv n (add_medoid (find_next_medoid distances s) s))
    by (apply add_medoid_inv; [exact Hs|apply find_next_medoid_range; assumption]).
  destruct (reclassify_objects_fold distances Hadd) as ((_ & Hmed & Hnon) & Hnear & _).
  intros o m Ho Hm. rewrite Hnon in Ho. rewrite Hmed in Hm. apply Hnear; assumption.
Qed.

Lemma build_loop_nearest (n : Z) (count : nat) (distances : MatrixXd) (s : pam_data) :
  pam_inv n s -> 1 <= n ->
  nearest_classified distances (build_loop (S count) distances s).
Proof.
  revert s. induction count as [|count IH]; intros s Hs Hn.
  - simpl. apply (build_step_nearest distances Hs Hn).
  - change (build_loop (S (S count)) distances s)
      with (build_loop (S count) distances (build_step distances s)).
    apply IH; [apply build_step_inv|]; assumption.
Qed.

Lemma refine_step_nearest (n : Z) (distances : MatrixXd) (s s' : pam_data) :
  pam_inv n s -> refine_step distances s = Some s' ->
  nearest_classified distances s'.
Proof.
  intros Hs. unfold refine_step.
  pose proof (find_best_swap_candidate distances s) as Hcand.
  destruct (find_best_swap distances s) as [[minimum_contribution old_medoid] new_medoid].
  destruct (_ && _) eqn:Hcond; [|discriminate].
  intros [= <-].
  apply andb_prop in Hcond. destruct Hcond as [Hcond Hnew].
  apply andb_prop in Hcond. destruct Hcond as [_ Hold].
  apply Z.geb_le in Hold, Hnew.
  destruct Hcand as [[Ho Hh]|[Ho Hh]]; simpl in Ho, Hh; [lia|].
  destruct (reclassify_objects_fold distances
              (@swap_medoid_inv n s old_medoid new_medoid Hs Ho Hh))
    as ((_ & Hmed & Hnon) & Hnear & _).
  intros o m Hobj Hm. rewrite Hnon in Hobj. rewrite Hmed in Hm.
  apply Hnear; assumption.
Qed.

Lemma refine_nearest (n : Z) (fuel : nat) (distances : MatrixXd) (s s' : pam_data) :
  pam_inv n s -> nearest_classified distances s ->
  refine fuel distances s = Some s' -> nearest_classified distances s'.
Proof.
  revert s. induction fuel as [|fuel IH]; simpl; intros s Hs Hnear; [discriminate|].
  destruct (refine_step distances s) as [s1|] eqn:Hstep.
  - apply IH.
    + apply (@refine_step_inv n distances s s1 Hs Hstep).
    + apply (@refine_step_nearest n distances s s1 Hs Hstep).
  - intros [= <-]. exact Hnear.
Qed.

(** X14.  Over a valid distance matrix, a returned result classifies every
    object to a nearest medoid: no medoid of the result is strictly closer
    to an object than the medoid the object is classified to. *)
Theorem returned_result_nearest
    (calculate_distance_matrix : MatrixXd -> MatrixXd) (fuel : nat) (k : Z)
    (matrix : MatrixXd) (final_clustering : pam_result.t) :
  rows (calculate_distance_matrix matrix) = rows matrix ->
  valid_distance_matrix (calculate_distance_matrix matrix) = true ->
  partition_around_medoids calculate_distance_matrix fuel k matrix
  = Returned final_clustering ->
  forall o m, 0 <= o < rows matrix ->
    In m (pam_result.medoids final_clustering) ->
    (coeff (calculate_distance_matrix matrix) o m
     <? coeff (calculate_distance_matrix matrix) o
          (vec_get (pam_result.classification final_clustering) o))%float = false.
Proof.
  intros Hrows Hvalid Hret o m Ho Hm. apply partition_returned in Hret.
  destruct Hret as (Hk & s & Hrefine & Hmed & Hclass).
  set (distances := calculate_distance_matrix matrix) in *.
  assert (Hn : 1 <= rows distances) by lia.
  assert (Hbuild : pam_inv (rows distances) (build k distances))
    by (apply build_inv, Hn).
  assert (Hs : pam_inv (rows distances) s)
    by (eapply refine_inv; eassumption).
  assert (Hnear_build : nearest_classified distances (build k distances)).
  { unfold build. replace (Z.to_nat (k - 1)) with (S (Z.to_nat (k - 2))) by lia.
    apply (@build_loop_nearest (rows distances)); [|exact Hn].
    apply pam_data_new_inv, find_initial_medoid_range, Hn. }
  pose proof (@refine_nearest _ fuel distances _ s Hbuild Hnear_build Hrefine) as Hnear.
  rewrite Hmed in Hm. rewrite Hclass. rewrite <- Hrows in Ho.
  destruct (in_dec Z.eq_dec o (medoids s)) as [Hin|Hnot].
  - rewrite (inv_medoid_self Hs o Hin).
    destruct (@valid_distance_matrix_entries distances o m Hvalid Ho
                (inv_medoid_range Hs m Hm)) as (Hdiag & Hnonneg).
    exact (zero_not_above Hdiag Hnonneg).
  - apply Hnear; [|exact Hm].
    destruct (proj1 (inv_cover Hs o) Ho) as [Hin|Hin]; [contradiction|exact Hin].
Qed.

Lemma returned_result_nearest_witness :
  let final_clustering := {| pam_result.medoids := [1; 2];
                             pam_result.classification := [1; 1; 2; 2] |} in
  rows (euclidean_distance_matrix two_pairs) = rows two_pairs
  /\ valid_distance_matrix (euclidean_distance_matrix two_pairs) = true
  /\ partition_around_medoids euclidean_distance_matrix 5 2 two_pairs
     = Returned final_clustering
  /\ forall o m, 0 <= o < rows two_pairs ->
       In m (pam_result.medoids final_clustering) ->
       (coeff (euclidean_distance_matrix two_pairs) o m
        <? coeff (euclidean_distance_matrix two_pairs) o
             (vec_get (pam_result.classification final_clustering) o))%float = false.
Proof.
  intros final_clustering.
  assert (Hrows : rows (euclidean_distance_matrix two_pairs) = rows two_pairs)
    by reflexivity.
  assert (Hvalid : valid_distance_matrix (euclidean_distance_matrix two_pairs) = true)
    by (vm_compute; reflexivity).
  assert (Hret : partition_around_medoids euclidean_distance_matrix 5 2 two_pairs
                 = Returned final_clustering) by (vm_compute; reflexivity).
  split; [exact Hrows|]. split; [exact Hvalid|]. split; [exact Hret|].
  exact (@returned_result_nearest euclidean_distance_matrix 5 2 two_pairs
           final_clustering Hrows Hvalid Hret).
Defined.

(** ** Refine with at most one nonselected object *)

Lemma calculate_swap_cost_single (distances : MatrixXd) (s : pam_data) (i h : Z) :
  nonselected s = [h] -> calculate_swap_cost distances i h s = 0%float.
Proof.
  intros Hnon. unfold calculate_swap_cost. rewrite Hnon. simpl.
  rewrite Z.eqb_refl. reflexivity.
Qed.

Lemma find_best_swap_few_nonselected (distances : MatrixXd) (s : pam_data) :
  (length (nonselected s) <= 1)%nat ->
  fst (fst (find_best_swap distances s)) = DBL_MAX
  \/ fst (fst (find_best_swap distances s)) = 0%float.
Proof.
  intros Hfew. unfold find_best_swap.
  apply (fold_left_invariant
           (fun acc : double * Z * Z =>
              fst (fst acc) = DBL_MAX \/ fst (fst acc) = 0%float)).
  - left. reflexivity.
  - intros [[minimum_contribution old_medoid] new_medoid] i _ Hacc.
    destruct (nonselected s) as [|h [|h' rest]] eqn:Hnon;
      [exact Hacc| |simpl in Hfew; lia].
    cbn [fold_left]. unfold swap_search_step.
    rewrite (calculate_swap_cost_single distances s i Hnon).
    destruct (0 <? minimum_contribution)%float; [right; reflexivity|exact Hacc].
Qed.

(** X15.  When at most one object is nonselected, [refine] performs no
    swap and leaves the state as it is: with no nonselected object there
    is no pair to try, and with a single one every swap costs 0.0. *)
Theorem refine_few_nonselected (distances : MatrixXd) (s : pam_data) :
  (length (nonselected s) <= 1)%nat ->
  refine_step distances s = None
  /\ forall fuel, refine (S fuel) distances s = Some s.
Proof.
  intros Hfew.
  assert (Hstep : refine_step distances s = None).
  { unfold refine_step.
    pose proof (find_best_swap_few_nonselected distances s Hfew) as Hmin.
    destruct (find_best_swap distances s) as [[minimum_contribution old_medoid] new_medoid].
    simpl in Hmin. destruct Hmin as [-> | ->]; reflexivity. }
  split; [exact Hstep|]. intros fuel. simpl. rewrite Hstep. reflexivity.
Qed.

Lemma refine_few_nonselected_witness :
  let distances := euclidean_distance_matrix line3 in
  let s := build 2 distances in
  (length (nonselected s) <= 1)%nat
  /\ (refine_step distances s = None
      /\ forall fuel, refine (S fuel) distances s = Some s).
Proof.
  intros distances s.
  assert (Hfew : (length (nonselected s) <= 1)%nat) by (vm_compute; lia).
  split; [exact Hfew|].
  exact (@refine_few_nonselected distances s Hfew).
Defined.

(** ** The second closest medoid *)

Lemma pam_data_new_second (n initial_medoid : Z) :
  second_is_medoid n (pam_data_new n initial_medoid).
Proof.
  intros o Ho. simpl. left. symmetry. apply vec_get_repeat. lia.
Qed.

Lemma add_medoid_second (n : Z) (s : pam_data) (m : Z) :
  second_is_medoid n s -> second_is_medoid n (add_medoid m s).
Proof.
  intros Hsecond o Ho. simpl. apply set_insert_In. right. apply Hsecond, Ho.
Qed.

Lemma set_second_closest_second (n : Z) (s : pam_data) (object medoid : Z) :
  second_is_medoid n s -> In medoid (medoids s) -> 0 <= object ->
  second_is_medoid n (set_second_closest object medoid s).
Proof.
  intros Hsecond Hm Hobj o Ho. simpl.
  destruct (Z.eq_dec object o) as [->|Hne].
  - unfold vec_get, vec_set.
    destruct (o <? 0) eqn:Hneg; [apply Z.ltb_lt in Hneg; lia|].
    destruct (Nat.lt_ge_cases (Z.to_nat o) (length (second_closest_medoid s)))
      as [Hlt|Hge].
    + rewrite list_update_nth_same by exact Hlt. exact Hm.
    + rewrite nth_overflow by (rewrite list_update_length; exact Hge).
      specialize (Hsecond o Ho). unfold vec_get in Hsecond.
      rewrite nth_overflow in Hsecond by exact Hge. exact Hsecond.
  - rewrite vec_get_set_other by lia. apply Hsecond, Ho.
Qed.

Lemma reclassify_step_second (n : Z) (distances : MatrixXd) (s : pam_data)
    (object medoid : Z) :
  pam_inv n s -> second_is_medoid n s ->
  In object (nonselected s) -> In medoid (medoids s) ->
  second_is_medoid n (reclassify_step distances object s medoid).
Proof.
  intros Hs Hsecond Ho Hm.
  pose proof (inv_nonselected_range Hs _ Ho) as Hrange.
  unfold reclassify_step.
  destruct (_ =? medoid); [exact Hsecond|].
  destruct (coeff distances object medoid
            <? coeff distances object (vec_get (classification s) object))%float.
  - apply set_second_closest_second; [exact Hsecond| |lia].
    simpl. apply (inv_classified Hs), Hrange.
  - destruct (coeff distances object medoid
              <? coeff distances object
                   (vec_get (second_closest_medoid s) object))%float;
      [|exact Hsecond].
    apply set_second_closest_second; [exact Hsecond|exact Hm|lia].
Qed.

Lemma reclassify_objects_second (n : Z) (distances : MatrixXd) (s : pam_data) :
  pam_inv n s -> second_is_medoid n s ->
  second_is_medoid n (snd (reclassify_objects distances s)).
Proof.
  intros Hs Hsecond. unfold reclassify_objects.
  pose (keeps := fun a : pam_data => same_sets_inv n s a /\ second_is_medoid n a).
  assert (Hfold : keeps (snd (fold_left (reclassify_object distances)
                                 (nonselected s) (0%float, s)))).
  { apply (fold_left_invariant (fun acc : double * pam_data => keeps (snd acc))).
    - split; [split; [exact Hs|split; reflexivity]|exact Hsecond].
    - intros [total a] o Ho [Ha Hsec]. simpl in Ha, Hsec. simpl.
      pose proof Ha as (_ & Hmed & _). rewrite Hmed.
      apply (fold_left_invariant keeps); [split; assumption|].
      intros a' m Hm [Ha' Hsec']. split; [apply reclassify_step_inv; assumption|].
      destruct Ha' as (Hinv' & Hmed' & Hnon').
      apply reclassify_step_second; try assumption.
      + rewrite Hnon'. exact Ho.
      + rewrite Hmed'. exact Hm. }
  apply Hfold.
Qed.

Lemma swap_medoid_second (n : Z) (s : pam_data) (old_medoid new_medoid : Z) :
  pam_inv n s -> second_is_medoid n s ->
  second_is_medoid n (swap_medoid old_medoid new_medoid s).
Proof.
  intros Hs Hsecond o Ho. simpl.
  rewrite vec_get_map by (rewrite (inv_second_size Hs); exact Ho).
  unfold replace_medoid. apply set_insert_In.
  destruct (_ =? old_medoid) eqn:Heq; [left; reflexivity|].
  right. apply set_erase_In. apply Z.eqb_neq in Heq.
  split; [exact Heq|apply Hsecond, Ho].
Qed.

Lemma run_point_second (distances : MatrixXd) (s : pam_data) :
  1 <= rows distances -> run_point distances s ->
  second_is_medoid (rows distances) s.
Proof.
  intros Hn Hrun.
  induction Hrun as [|s Hrun IH|s c old new Hrun IH Hbest Hcond|s Hrun IH].
  - apply pam_data_new_second.
  - apply add_medoid_second, IH.
  - apply swap_medoid_second; [apply (run_point_inv Hn Hrun)|exact IH].
  - apply reclassify_objects_second; [apply (run_point_inv Hn Hrun)|exact IH].
Qed.

(** X16.  At every point of a run, every entry of [second_closest_medoid]
    is a medoid of the state (possibly the medoid the object is classified
    to). *)
Theorem second_closest_is_medoid (distances : MatrixXd) (s : pam_data) :
  1 <= rows distances ->
  run_point distances s ->
  forall o, 0 <= o < rows distances ->
    In (vec_get (second_closest_medoid s) o) (medoids s).
Proof.
  intros Hn Hrun. exact (run_point_second Hn Hrun).
Qed.

Lemma second_closest_is_medoid_witness :
  1 <= rows line6_distances
  /\ run_point line6_distances (build 2 line6_distances)
  /\ forall o, 0 <= o < rows line6_distances ->
       In (vec_get (second_closest_medoid (build 2 line6_distances)) o)
          (medoids (build 2 line6_distances)).
Proof.
  assert (Hn : 1 <= rows line6_distances) by (vm_compute; discriminate).
  split; [exact Hn|]. split; [apply build_run_point|].
  exact (@second_closest_is_medoid line6_distances (build 2 line6_distances)
           Hn (build_run_point 2 line6_distances)).
Defined.

(** X17.  After a reclassification in a run, the second closest medoid of
    a nonselected object is never strictly closer to it than the medoid
    it is classified to. *)
Theorem second_closest_not_closer (distances : MatrixXd) (s : pam_data) :
  1 <= rows distances ->
  run_point distances s ->
  let s' := snd (reclassify_objects distances s) in
  forall o, In o (nonselected s') ->
    (coeff distances o (vec_get (second_closest_medoid s') o)
     <? coeff distances o (vec_get (classification s') o))%float = false.
Proof.
  intros Hn Hrun s' o Ho.
  pose proof (run_point_inv Hn Hrun) as Hs.
  pose proof (run_point_second Hn (point_reclassified Hrun)) as Hsecond.
  fold s' in Hsecond.
  destruct (reclassify_objects_fold distances Hs) as ((Hs' & Hmed & Hnon) & Hnear & _).
  fold s' in Hs', Hmed, Hnon, Hnear.
  rewrite Hnon in Ho. apply Hnear; [exact Ho|].
  rewrite <- Hmed. apply Hsecond.
  apply (inv_nonselected_range Hs), Ho.
Qed.

Lemma second_closest_not_closer_witness :
  let s := build 2 line6_distances in
  let s' := snd (reclassify_objects line6_distances s) in
  1 <= rows line6_distances
  /\ run_point line6_distances s
  /\ forall o, In o (nonselected s') ->
       (coeff line6_distances o (vec_get (second_closest_medoid s') o)
        <? coeff line6_distances o (vec_get (classification s') o))%float = false.
Proof.
  intros s s'.
  assert (Hn : 1 <= rows line6_distances) by (vm_compute; discriminate).
  split; [exact Hn|]. split; [apply build_run_point|].
  exact (@second_closest_not_closer line6_distances s
           Hn (build_run_point 2 line6_distances)).
Defined.

(** ** When Build adds a medoid, and which swap Refine performs *)

(** X18.  A Build iteration adds exactly one medoid whenever some
    nonselected candidate has a gain above [DBL_MIN]: the medoid added is
    then a nonselected object, and the sets grow and shrink by one. *)
Theorem build_step_adds_medoid (n : Z) (distances : MatrixXd) (s : pam_data) :
  pam_inv n s ->
  (exists i, In i (nonselected s)
             /\ (DBL_MIN <? gain distances s i)%float = true) ->
  In (find_next_medoid distances s) (nonselected s)
  /\ length (medoids (build_step distances s)) = S (length (medoids s))
  /\ S (length (nonselected (build_step distances s))) = length (nonselected s).
Proof.
  intros Hs (i0 & Hi0 & Habove).
  assert (Hseen : next_medoid_seen distances s (nonselected s)
                    (fold_left (next_medoid_step distances s) (nonselected s)
                       (DBL_MIN, 0))).
  { apply (@next_medoid_fold_seen distances s (nonselected s) [] (DBL_MIN, 0)).
    - apply Hs.
    - left. split; [reflexivity|]. intros i []. }
  assert (Hnext : In (find_next_medoid distances s) (nonselected s)).
  { unfold find_next_medoid.
    destruct Hseen as [[_ Hlow]|(Hr & _)]; [|exact Hr].
    rewrite (Hlow i0 Hi0) in Habove. discriminate. }
  split; [exact Hnext|].
  assert (Hrange : 0 <= find_next_medoid distances s < n)
    by (apply (inv_nonselected_range Hs), Hnext).
  unfold build_step.
  destruct (reclassify_objects_same_sets distances
              (add_medoid_inv Hs Hrange)) as (_ & Hmed & Hnon).
  rewrite Hmed, Hnon. simpl. split.
  - apply set_insert_length. intros Hin. exact (inv_disjoint Hs _ Hin Hnext).
  - apply set_erase_length; [apply Hs|exact Hnext].
Qed.

Lemma build_step_adds_medoid_witness :
  let s := pam_data_new 6 2 in
  pam_inv 6 s
  /\ (exists i, In i (nonselected s)
                /\ (DBL_MIN <? gain line6_distances s i)%float = true)
  /\ In (find_next_medoid line6_distances s) (nonselected s)
  /\ length (medoids (build_step line6_distances s)) = S (length (medoids s))
  /\ S (length (nonselected (build_step line6_distances s)))
     = length (nonselected s).
Proof.
  intros s.
  assert (Hs : pam_inv 6 s) by (apply pam_data_new_inv; lia).
  assert (Hgain : exists i, In i (nonselected s)
                            /\ (DBL_MIN <? gain line6_distances s i)%float = true).
  { exists 4. split; [vm_compute; tauto|vm_compute; reflexivity]. }
  split; [exact Hs|]. split; [exact Hgain|].
  exact (@build_step_adds_medoid 6 line6_distances s Hs Hgain).
Defined.

Lemma find_best_swap_holds_pair (distances : MatrixXd) (s : pam_data) :
  search_holds_pair distances s (find_best_swap distances s).
Proof.
  unfold find_best_swap. rewrite fold_left_pairs.
  apply (fold_left_invariant (search_holds_pair distances s)).
  - left. reflexivity.
  - intros [[minimum_contribution old_medoid] new_medoid] [i h] Hin Hacc.
    apply in_prod_iff in Hin. unfold swap_search_step. cbn [fst snd].
    destruct (_ <? _)%float; [|exact Hacc].
    right. cbn [fst snd]. split; [apply Hin|]. split; [apply Hin|reflexivity].
Qed.

(** X19.  When the loop of [refine] swaps, it swaps a medoid [i] for a
    nonselected [h] whose computed cost is strictly negative and which no
    other pair's cost is strictly below, and goes on from the
    reclassification of the swapped state. *)
Theorem refine_step_swaps_minimum (distances : MatrixXd) (s s' : pam_data) :
  refine_step distances s = Some s' ->
  exists i h,
    In i (medoids s) /\ In h (nonselected s)
    /\ (calculate_swap_cost distances i h s <? 0)%float = true
    /\ (forall i' h', In i' (medoids s) -> In h' (nonselected s) ->
          (calculate_swap_cost distances i' h' s
           <? calculate_swap_cost distances i h s)%float = false)
    /\ s' = snd (reclassify_objects distances (swap_medoid i h s)).
Proof.
  unfold refine_step.
  pose proof (find_best_swap_holds_pair distances s) as Hpair.
  pose proof (fun i' h' => @find_best_swap_minimum distances s i' h') as Hmin.
  destruct (find_best_swap distances s) as [[minimum_contribution old_medoid] new_medoid].
  cbn [fst snd] in Hmin.
  destruct ((minimum_contribution <? 0)%float) eqn:Hneg; [|discriminate].
  destruct (_ && _); [|discriminate].
  intros [= <-].
  destruct Hpair as [[= -> -> ->]|(Hold & Hnew & Hcost)];
    [vm_compute in Hneg; discriminate|].
  cbn [fst snd] in Hold, Hnew, Hcost. subst minimum_contribution.
  exists old_medoid, new_medoid. repeat split; auto.
Qed.

Lemma refine_step_swaps_minimum_witness :
  let distances := euclidean_distance_matrix two_pairs in
  let s := add_medoid 3 (pam_data_new 4 0) in
  let s' := {| medoids := [1; 3]; nonselected := [0; 2];
               classification := [1; 1; 3; 3];
               second_closest_medoid := [1; 1; 1; 1] |} in
  refine_step distances s = Some s'
  /\ exists i h,
       In i (medoids s) /\ In h (nonselected s)
       /\ (calculate_swap_cost distances i h s <? 0)%float = true
       /\ (forall i' h', In i' (medoids s) -> In h' (nonselected s) ->
             (calculate_swap_cost distances i' h' s
              <? calculate_swap_cost distances i h s)%float = false)
       /\ s' = snd (reclassify_objects distances (swap_medoid i h s)).
Proof.
  intros distances s s'.
  assert (Hstep : refine_step distances s = Some s') by (vm_compute; reflexivity).
  split; [exact Hstep|].
  exact (@refine_step_swaps_minimum distances s s' Hstep).
Defined.
